(** * slate-gboard: the Gboard input plugin of [src/lib/index.js]

    A shallow embedding of [GboardPlugin] and of the part of the host
    editor it talks to, followed by the properties of the plugin's four
    handlers.

    - JavaScript strings are [string]s, one [ascii] per UTF-16 code unit
      (texts are restricted to 8-bit code units); numbers are [Z].
    - [IS_ANDROID], [jsdiff.diffChars] and [findPoint] are not defined in
      [src/lib/index.js]: the handlers take them as parameters.
    - The three closure variables of [GboardPlugin] are the fields of
      [PluginState]; every handler passes the state explicitly.
    - The [change] object is a record holding the current value and the
      list of the calls made on it, in order.
    - A handler ends in a [Completion]: a returned value or a thrown
      [TypeError].
    - The callbacks given to [window.requestAnimationFrame] are kept in a
      queue; each one is represented by the value of [n] it captured. *)

From Stdlib Require Import ZArith List String Ascii Bool Lia.
Import ListNotations.

Local Open Scope string_scope.
Local Open Scope list_scope.
Local Open Scope Z_scope.

(** ** JavaScript strings *)

Module Js.

(** [s.length] *)
Definition length (s : string) : Z := Z.of_nat (String.length s).

(** [s.charAt(i)]: the one-character string at index [i], or the empty
    string when [i] is out of range. *)
Definition charAt (s : string) (i : Z) : string :=
  if i <? 0 then ""
  else match String.get (Z.to_nat i) s with
       | Some c => String c ""
       | None => ""
       end.

(** A relative index of [slice]: negative indices count from the end,
    and the result is clamped to [0 .. s.length]. *)
Definition relativeIndex (len i : Z) : Z :=
  if i <? 0 then Z.max (len + i) 0 else Z.min i len.

(** [s.slice(b, e)] *)
Definition slice (s : string) (b e : Z) : string :=
  let len := length s in
  let from := relativeIndex len b in
  let to := relativeIndex len e in
  String.substring (Z.to_nat from) (Z.to_nat (Z.max (to - from) 0)) s.

(** What a handler returns to the plugin stack. *)
Inductive value := undefined | false.

Inductive error := TypeError.

End Js.

(** How a handler call ends. *)
Inductive Completion :=
| Return (v : Js.value)
| Throw (e : Js.error).

(** ** The host editor's model

    The document model, the selection and the [change] object belong to
    the host editor; the plugin only calls them.  They are modelled here
    on documents made of blocks that hold text nodes, each text node
    being an ordered sequence of leaves. *)

Definition Key := string.
Definition Mark := string.
Definition Marks := list Mark.

Definition marks_eqb (a b : Marks) : bool :=
  if list_eq_dec string_dec a b then true else false.

(** A point of the model: a node key and a character offset. *)
Module Point.
Record t := mk { key : Key; offset : Z }.
End Point.

(** The selection: an immutable record; every method returns a new
    range and leaves its receiver as it was. *)
Module Range.

Record t := mk {
  anchorKey : Key;
  anchorOffset : Z;
  focusKey : Key;
  focusOffset : Z;
  isBackward : option bool
}.

Definition backward (r : t) : bool :=
  match isBackward r with Some b => b | None => false end.

Definition startKey (r : t) := if backward r then focusKey r else anchorKey r.
Definition startOffset (r : t) := if backward r then focusOffset r else anchorOffset r.
Definition endKey (r : t) := if backward r then anchorKey r else focusKey r.
Definition endOffset (r : t) := if backward r then anchorOffset r else focusOffset r.

Definition isCollapsed (r : t) : bool :=
  String.eqb (anchorKey r) (focusKey r) && (anchorOffset r =? focusOffset r).

Definition collapseToStart (r : t) : t :=
  mk (startKey r) (startOffset r) (startKey r) (startOffset r) (Some false).

Definition collapseToEnd (r : t) : t :=
  mk (endKey r) (endOffset r) (endKey r) (endOffset r) (Some false).

Definition moveAnchor (r : t) (n : Z) : t :=
  let o := anchorOffset r + n in
  mk (anchorKey r) o (focusKey r) (focusOffset r)
     (if String.eqb (anchorKey r) (focusKey r)
      then Some (focusOffset r <? o) else isBackward r).

Definition moveFocus (r : t) (n : Z) : t :=
  let o := focusOffset r + n in
  mk (anchorKey r) (anchorOffset r) (focusKey r) o
     (if String.eqb (focusKey r) (anchorKey r)
      then Some (o <? anchorOffset r) else isBackward r).

(** [r.move(n)]: both ends move by [n] characters. *)
Definition move (r : t) (n : Z) : t := moveFocus (moveAnchor r n) n.

Definition moveAnchorTo (r : t) (k : Key) (o : Z) : t :=
  mk k o (focusKey r) (focusOffset r)
     (if String.eqb k (focusKey r) then Some (focusOffset r <? o)
      else if String.eqb k (anchorKey r) then isBackward r else None).

Definition moveFocusTo (r : t) (k : Key) (o : Z) : t :=
  mk (anchorKey r) (anchorOffset r) k o
     (if String.eqb k (anchorKey r) then Some (o <? anchorOffset r)
      else if String.eqb k (focusKey r) then isBackward r else None).

End Range.

(** A leaf: a run of text with uniform marks. *)
Module Leaf.
Record t := mk { text : string; marks : Marks }.
End Leaf.

(** A character of a text node together with its marks. *)
Module Character.
Record t := mk { char : ascii; marks : Marks }.
End Character.

(** The characters of a string, all with the marks [m]. *)
Definition markedChars (s : string) (m : Marks) : list Character.t :=
  map (fun c => Character.mk c m) (list_ascii_of_string s).

(** The characters of a sequence of leaves. *)
Definition leafChars (l : Leaf.t) : list Character.t :=
  markedChars (Leaf.text l) (Leaf.marks l).

Definition characters (ls : list Leaf.t) : list Character.t :=
  flat_map leafChars ls.

(** Leaves are rebuilt from characters by grouping the runs of equal
    marks; an empty text has one empty leaf. *)
Fixpoint groupChars (cs : list Character.t) : list Leaf.t :=
  match cs with
  | [] => []
  | c :: cs' =>
      match groupChars cs' with
      | l :: ls =>
          if marks_eqb (Character.marks c) (Leaf.marks l)
          then Leaf.mk (String (Character.char c) (Leaf.text l)) (Leaf.marks l) :: ls
          else Leaf.mk (String (Character.char c) "") (Character.marks c) :: l :: ls
      | [] => [Leaf.mk (String (Character.char c) "") (Character.marks c)]
      end
  end.

Definition createLeaves (cs : list Character.t) : list Leaf.t :=
  match cs with
  | [] => [Leaf.mk "" []]
  | _ => groupChars cs
  end.

(** A text node. *)
Module Text.

Record t := mk { key : Key; leaves : list Leaf.t }.

(** [node.getLeaves()] *)
Definition getLeaves (n : t) : list Leaf.t := leaves n.

(** The text of the node: its leaves' texts, joined. *)
Definition text (n : t) : string :=
  string_of_list_ascii (map Character.char (characters (leaves n))).

(** The characters from offset [s] up to offset [e] are replaced by
    [new]. *)
Definition splice (n : t) (s e : Z) (new : list Character.t) : t :=
  let cs := characters (leaves n) in
  mk (key n)
     (createLeaves (firstn (Z.to_nat s) cs ++ new ++ skipn (Z.to_nat e) cs)).

(** The marks a character typed at the cursor [o] takes: those of the
    character before it, and none at the start of the node. *)
Definition marksAt (n : t) (o : Z) : Marks :=
  if o <=? 0 then []
  else match nth_error (characters (leaves n)) (Z.to_nat (o - 1)) with
       | Some c => Character.marks c
       | None => []
       end.

(** The marks of the character at offset [o], which a text typed over a
    selection that starts at [o] takes. *)
Definition marksFrom (n : t) (o : Z) : Marks :=
  match nth_error (characters (leaves n)) (Z.to_nat o) with
  | Some c => Character.marks c
  | None => []
  end.

End Text.

(** A block: here, a sequence of text nodes. *)
Module Block.

Record t := mk { key : Key; nodes : list Text.t }.

(** [block.getLastText()], [None] standing for [undefined] *)
Definition getLastText (b : t) : option Text.t :=
  match rev (nodes b) with
  | n :: _ => Some n
  | [] => None
  end.

Definition hasText (b : t) (k : Key) : bool :=
  existsb (fun n => String.eqb (Text.key n) k) (nodes b).

(** The first text node with key [k] is replaced by [f] of it. *)
Fixpoint updateTexts (ns : list Text.t) (k : Key) (f : Text.t -> Text.t) : list Text.t :=
  match ns with
  | [] => []
  | n :: ns' =>
      if String.eqb (Text.key n) k then f n :: ns'
      else n :: updateTexts ns' k f
  end.

End Block.

Module Document.

Record t := mk { nodes : list Block.t }.

(** [document.getClosestBlock(key)]: the block that holds the text
    node [key], [None] standing for [null]. *)
Definition getClosestBlock (d : t) (k : Key) : option Block.t :=
  find (fun b => Block.hasText b k) (nodes d).

(** [document.getDescendant(key)]: the text node with that key,
    [None] standing for [null]. *)
Definition getDescendant (d : t) (k : Key) : option Text.t :=
  match getClosestBlock d k with
  | Some b => find (fun n => String.eqb (Text.key n) k) (Block.nodes b)
  | None => None
  end.

Fixpoint updateBlocks (bs : list Block.t) (k : Key) (f : Text.t -> Text.t) : list Block.t :=
  match bs with
  | [] => []
  | b :: bs' =>
      if Block.hasText b k
      then Block.mk (Block.key b) (Block.updateTexts (Block.nodes b) k f) :: bs'
      else b :: updateBlocks bs' k f
  end.

(** The text node [k] is replaced by [f] of it. *)
Definition updateText (d : t) (k : Key) (f : Text.t -> Text.t) : t :=
  mk (updateBlocks (nodes d) k f).

End Document.

Module Value.
Record t := mk { document : Document.t; selection : Range.t }.
End Value.

(** The [change] object: the current value and the calls made so far.
    Every method updates the value and records the call. *)
Module Change.

Inductive call :=
| InsertText (text : string)
| DeleteCharBackward
| InsertTextAtRange (range : Range.t) (text : string) (marks : Marks)
| Select (range : Range.t).

Record t := mk { value : Value.t; calls : list call }.

(** [insertTextAtRange] on a range inside one text node.  An expanded
    range is deleted first.  The text, carrying [marks], then goes in at
    the start of the range; but when a range was deleted and the
    selection of the value starts in another text node, it goes in at the
    start of the selection.  What becomes of the selection is left to the
    caller. *)
Definition replaceRange (v : Value.t) (range : Range.t) (text : string) (marks : Marks)
  : Value.t :=
  if String.eqb (Range.startKey range) (Range.endKey range)
  then
    let key := Range.startKey range in
    let offset := Range.startOffset range in
    let selection := Value.selection v in
    let expanded := negb (Range.isCollapsed range) in
    let deleted :=
      if expanded
      then Document.updateText (Value.document v) key
             (fun n => Text.splice n offset (Z.max offset (Range.endOffset range)) [])
      else Value.document v in
    let elsewhere := expanded && negb (String.eqb (Range.startKey selection) key) in
    let key' := if elsewhere then Range.startKey selection else key in
    let offset' := if elsewhere then Range.startOffset selection else offset in
    Value.mk
      (Document.updateText deleted key'
         (fun n => Text.splice n offset' offset' (markedChars text marks)))
      selection
  else v.

(** The text is typed over the selection and the cursor ends after it.
    At a cursor the text takes the marks of the character before it, over
    a selection those of the first character selected. *)
Definition typeText (v : Value.t) (text : string) : Value.t :=
  let sel := Value.selection v in
  let marks :=
    match Document.getDescendant (Value.document v) (Range.startKey sel) with
    | Some n =>
        if Range.isCollapsed sel
        then Text.marksAt n (Range.startOffset sel)
        else Text.marksFrom n (Range.startOffset sel)
    | None => []
    end in
  Value.mk (Value.document (replaceRange v sel text marks))
           (Range.move (Range.collapseToStart sel) (Js.length text)).

(** An expanded selection is deleted; a collapsed one deletes the
    character before the cursor, when there is one in the node.  At the
    start of a node the host joins the node with what comes before it in
    the document; this is not modelled, and the value is then left as it
    is. *)
Definition backspace (v : Value.t) : Value.t :=
  let sel := Value.selection v in
  if Range.isCollapsed sel
  then if 0 <? Range.startOffset sel
       then Value.mk
              (Value.document
                 (replaceRange v (Range.moveAnchor sel (-1)) "" []))
              (Range.move sel (-1))
       else v
  else Value.mk (Value.document (replaceRange v sel "" []))
                (Range.collapseToStart sel).

(** [change.insertText(text)] *)
Definition insertText (c : t) (text : string) : t :=
  mk (typeText (value c) text) (calls c ++ [InsertText text]).

(** [change.deleteCharBackward()] *)
Definition deleteCharBackward (c : t) : t :=
  mk (backspace (value c)) (calls c ++ [DeleteCharBackward]).

(** [change.insertTextAtRange(range, text, marks)] *)
Definition insertTextAtRange (c : t) (range : Range.t) (text : string) (marks : Marks) : t :=
  mk (replaceRange (value c) range text marks)
     (calls c ++ [InsertTextAtRange range text marks]).

(** [change.select(range)] *)
Definition select (c : t) (range : Range.t) : t :=
  mk (Value.mk (Value.document (value c)) range) (calls c ++ [Select range]).

End Change.

(** ** The native side *)

Module Dom.

(** A DOM node: its text content and, when the editor rendered it,
    the key of the model node it shows and the offset of its first
    character in that node. *)
Record node := mkNode {
  textContent : string;
  dataKey : option Key;
  dataOffset : Z
}.

(** [window.getSelection()] *)
Record selection := mkSelection { anchorNode : node; anchorOffset : Z }.

End Dom.

(** Modelled from the spec: [findPoint] of [../util/find-point], which is
    not part of the sources at hand.  The spec gives it as
    [resolvePoint(nativeNode, nativeOffset, documentModel) ->
    {nodeKey, offset} | null]: the model coordinate of a DOM position,
    and [null] when the model does not track the node. *)
Definition resolvePoint (n : Dom.node) (o : Z) (v : Value.t) : option Point.t :=
  match Dom.dataKey n with
  | Some k =>
      match Document.getDescendant (Value.document v) k with
      | Some _ => Some (Point.mk k (Dom.dataOffset n + o))
      | None => None
      end
  | None => None
  end.

(** One element of the edit script that [jsdiff.diffChars] returns. *)
Module DiffOp.
Record t := mk { count : Z; added : bool; removed : bool; value : string }.
End DiffOp.

(** ** The plugin *)

(** The closure variables of [GboardPlugin].  [compositionCount] is a
    JavaScript number that only [++] changes; it stays exact as long as
    it is below 2^53, which is taken for granted. *)
Record PluginState := mkState {
  compositionCount : Z;
  isComposing : bool;
  textToInsert : string
}.

(** Their values when the plugin is created. *)
Definition initialState : PluginState := mkState 0 false "".

(** A native event: its [data] and whether [preventDefault] was called. *)
Module Event.
Record t := mk { data : string; defaultPrevented : bool }.
Definition preventDefault (e : t) : t := mk (data e) true.
End Event.

(** The queue of [window.requestAnimationFrame]: each callback of the
    plugin is kept as the [n] it captured. *)
Definition FrameQueue := list Z.

(** The callback of [onCompositionEnd], run with the state of that time. *)
Definition frameCallback (n : Z) (st : PluginState) : PluginState :=
  if n <? compositionCount st then st
  else mkState (compositionCount st) false (textToInsert st).

(** [leaves.find(r => { start = end; end += r.text.length;
    if (end >= point.offset) return true })]: the index and the leaf
    found, if any, and the values [start] and [end] are left with. *)
Fixpoint findLeaf (offset : Z) (leaves : list Leaf.t) (index : nat) (start end_ : Z)
  : option (nat * Leaf.t) * Z * Z :=
  match leaves with
  | [] => (None, start, end_)
  | r :: rest =>
      let start := end_ in
      let end_ := end_ + Js.length (Leaf.text r) in
      if offset <=? end_ then (Some (index, r), start, end_)
      else findLeaf offset rest (S index) start end_
  end.

(** [leaves.last()], with the index of the leaf. *)
Definition lastLeafOf (leaves : list Leaf.t) : option (nat * Leaf.t) :=
  match rev leaves with
  | l :: _ => Some (Nat.pred (List.length leaves), l)
  | [] => None
  end.

(** [updateTextAndSelection(change, textContent, text, point, start, end,
    marks)] *)
Definition updateTextAndSelection (change : Change.t) (textContent text : string)
    (point : Point.t) (start end_ : Z) (marks : Marks) : Change.t :=
  let selection := Value.selection (Change.value change) in
  let delta := Js.length textContent - Js.length text in
  let corrected := Range.move (Range.collapseToEnd selection) delta in
  let entire :=
    Range.moveFocusTo (Range.moveAnchorTo selection (Point.key point) start)
                      (Point.key point) end_ in
  Change.select (Change.insertTextAtRange change entire textContent marks) corrected.

(** The text read from the DOM, after the compensation for the new line
    that the renderer adds to the last leaf (lines 159 to 169). *)
Definition observedText (textContent : string) (isLastText isLastLeaf : bool) : string :=
  let lastChar := Js.charAt textContent (Js.length textContent - 1) in
  if isLastText && isLastLeaf && String.eqb lastChar (String "010" "")
  then Js.slice textContent 0 (-1)
  else textContent.

Section Plugin.

(** [IS_ANDROID] of [../util/environment] *)
Variable IS_ANDROID : bool.

(** [jsdiff.diffChars] of the [diff] package *)
Variable diffChars : string -> string -> list DiffOp.t.

(** [findPoint] of [../util/find-point] *)
Variable findPoint : Dom.node -> Z -> Value.t -> option Point.t.

(** [onBeforeInput(event, change, editor)] *)
Definition onBeforeInput (event : Event.t) (change : Change.t) (st : PluginState)
  : Js.value * Event.t * Change.t * PluginState :=
  let localInsert := "" in
  let event := Event.preventDefault event in
  let '(localInsert, st) :=
    if IS_ANDROID then
      let localInsert :=
        if negb (String.eqb (Event.data event) "") && String.eqb (textToInsert st) ""
        then (localInsert ++ Event.data event)%string
        else localInsert in
      if negb (String.eqb (textToInsert st) "")
      then ((localInsert ++ (textToInsert st ++ Event.data event))%string,
            mkState (compositionCount st) (isComposing st) "")
      else (localInsert, st)
    else ((localInsert ++ Event.data event)%string, st) in
  let change :=
    if negb (String.eqb localInsert "")
    then Change.insertText change localInsert
    else change in
  (Js.false, event, change, st).

(** [onCompositionEnd(event, change, editor)] *)
Definition onCompositionEnd (event : Event.t) (st : PluginState) (frames : FrameQueue)
  : PluginState * FrameQueue :=
  let n := compositionCount st in
  let frames := frames ++ [n] in
  let st :=
    if IS_ANDROID && isComposing st then
      if negb (String.eqb (Event.data event) "")
      then mkState (compositionCount st) (isComposing st) (Event.data event)
      else st
    else st in
  (st, frames).

(** [onCompositionStart(event, change, editor)] *)
Definition onCompositionStart (st : PluginState) : PluginState :=
  let st := mkState (compositionCount st) true (textToInsert st) in
  mkState (compositionCount st + 1) (isComposing st) (textToInsert st).

(** [onInput(event, change, editor)]; [native] is what
    [window.getSelection()] returns.

    - [node == lastText] and [leaf == lastLeaf] compare objects: nodes
      are told apart by their keys and leaves by their place among the
      leaves of the node.
    - A property read on [null] or [undefined] throws a [TypeError].
    - [selection.collapseToStart().move(ind)] (line 184) builds a range
      from the immutable [selection] and nothing takes it: it is the
      unused [let] before [deleteCharBackward]. *)
Definition onInput (native : Dom.selection) (change : Change.t)
  : Completion * Change.t :=
  let value := Change.value change in
  let anchorNode := Dom.anchorNode native in
  let anchorOffset := Dom.anchorOffset native in
  match findPoint anchorNode anchorOffset value with
  | None => (Return Js.undefined, change)
  | Some point =>
  let document := Value.document value in
  let selection := Value.selection value in
  match Document.getDescendant document (Point.key point) with
  | None => (Throw Js.TypeError, change)
  | Some node =>
  match Document.getClosestBlock document (Text.key node) with
  | None => (Throw Js.TypeError, change)
  | Some block =>
  let leaves := Text.getLeaves node in
  let lastText := Block.getLastText block in
  let lastLeaf := lastLeafOf leaves in
  let '(found, start, end_) := findLeaf (Point.offset point) leaves 0 0 0 in
  match (match found with Some l => Some l | None => lastLeaf end) with
  | None => (Throw Js.TypeError, change)
  | Some (index, leaf) =>
  let text := Leaf.text leaf in
  let textContent := Dom.textContent anchorNode in
  let isLastText :=
    match lastText with
    | Some t => String.eqb (Text.key node) (Text.key t)
    | None => false
    end in
  let isLastLeaf :=
    match lastLeaf with
    | Some (last, _) => Nat.eqb index last
    | None => false
    end in
  let textContent := observedText textContent isLastText isLastLeaf in
  if String.eqb textContent text then (Return Js.undefined, change)
  else
    if IS_ANDROID then
      let diffs := diffChars text textContent in
      if 0 <? Z.of_nat (List.length diffs) then
        match nth_error diffs 0 with
        | None => (Throw Js.TypeError, change)
        | Some d0 =>
        let ind := DiffOp.count d0 in
        match nth_error diffs 1 with
        | None => (Throw Js.TypeError, change)
        | Some d1 =>
            if DiffOp.removed d1 then
              if DiffOp.count d1 =? 1 then
                let _ := Range.move (Range.collapseToStart selection) ind in
                (Return Js.false, Change.deleteCharBackward change)
              else
                (Return Js.false,
                 updateTextAndSelection change textContent text point start end_
                   (Leaf.marks leaf))
            else (Return Js.false, change)
        end end
      else (Return Js.false, change)
    else
      (Return Js.false,
       updateTextAndSelection change textContent text point start end_
         (Leaf.marks leaf))
  end end end end.

End Plugin.

(** ** Notifications over time

    The host delivers the notifications one at a time; a rendering frame
    runs the callbacks queued so far.  The world is what persists between
    notifications. *)

Record World := mkWorld {
  state : PluginState;
  change : Change.t;
  frames : FrameQueue
}.

Inductive Notification :=
| CompositionStart
| CompositionEnd (data : string)
| BeforeInput (data : string)
| Input (native : Dom.selection)
| AnimationFrame.

(** The callbacks of a rendering frame, in the order they were queued. *)
Definition runFrames (frames : FrameQueue) (st : PluginState) : PluginState :=
  fold_left (fun st n => frameCallback n st) frames st.

Section Dispatch.

Variable IS_ANDROID : bool.
Variable diffChars : string -> string -> list DiffOp.t.
Variable findPoint : Dom.node -> Z -> Value.t -> option Point.t.

Definition step (w : World) (n : Notification) : World :=
  match n with
  | CompositionStart =>
      mkWorld (onCompositionStart (state w)) (change w) (frames w)
  | CompositionEnd data =>
      let '(st, fr) :=
        onCompositionEnd IS_ANDROID (Event.mk data false) (state w) (frames w) in
      mkWorld st (change w) fr
  | BeforeInput data =>
      let '(_, _, c, st) :=
        onBeforeInput IS_ANDROID (Event.mk data false) (change w) (state w) in
      mkWorld st c (frames w)
  | Input native =>
      mkWorld (state w)
              (snd (onInput IS_ANDROID diffChars findPoint native (change w)))
              (frames w)
  | AnimationFrame =>
      mkWorld (runFrames (frames w) (state w)) (change w) []
  end.

Definition run (w : World) (ns : list Notification) : World :=
  fold_left step ns w.

End Dispatch.

(** ** A character diff to run the plugin on

    Modelled from the spec: [jsdiff.diffChars] comes from the [diff]
    package, which is not part of the sources at hand.  The spec gives it
    as the utility that computes a character-level edit script between
    two strings, each op tagged added, removed or unchanged, with a count
    and the literal substring.  [lcsDiffChars] computes a shortest such
    script, removals before additions, and joins neighbouring ops of the
    same tag. *)

Inductive Edit :=
| Keep (c : ascii)
| Del (c : ascii)
| Ins (c : ascii).

Definition editCost (e : Edit) : nat :=
  match e with Keep _ => 0%nat | _ => 1%nat end.

Definition scriptCost (es : list Edit) : nat :=
  fold_right (fun e n => (editCost e + n)%nat) 0%nat es.

Fixpoint editScript (xs : list ascii) : list ascii -> list Edit :=
  match xs with
  | [] => map Ins
  | x :: xs' =>
      fix against (ys : list ascii) : list Edit :=
        match ys with
        | [] => map Del (x :: xs')
        | y :: ys' =>
            if Ascii.eqb x y then Keep x :: editScript xs' ys'
            else
              let viaDel := Del x :: editScript xs' (y :: ys') in
              let viaIns := Ins y :: against ys' in
              if (scriptCost viaDel <=? scriptCost viaIns)%nat then viaDel else viaIns
        end
  end.

Definition opOfEdit (e : Edit) : DiffOp.t :=
  match e with
  | Keep c => DiffOp.mk 1 false false (String c "")
  | Del c => DiffOp.mk 1 false true (String c "")
  | Ins c => DiffOp.mk 1 true false (String c "")
  end.

Definition sameTag (a b : DiffOp.t) : bool :=
  Bool.eqb (DiffOp.added a) (DiffOp.added b)
  && Bool.eqb (DiffOp.removed a) (DiffOp.removed b).

Fixpoint joinOps (es : list Edit) : list DiffOp.t :=
  match es with
  | [] => []
  | e :: es' =>
      let o := opOfEdit e in
      match joinOps es' with
      | p :: ps =>
          if sameTag o p
          then DiffOp.mk (DiffOp.count o + DiffOp.count p) (DiffOp.added p)
                 (DiffOp.removed p) (DiffOp.value o ++ DiffOp.value p)%string :: ps
          else o :: p :: ps
      | [] => [o]
      end
  end.

Definition lcsDiffChars (oldStr newStr : string) : list DiffOp.t :=
  joinOps (editScript (list_ascii_of_string oldStr) (list_ascii_of_string newStr)).

(** The text an edit script starts from and the text it leads to. *)
Definition oldChars (es : list Edit) : list ascii :=
  flat_map (fun e => match e with Ins _ => [] | Keep c | Del c => [c] end) es.

Definition newChars (es : list Edit) : list ascii :=
  flat_map (fun e => match e with Del _ => [] | Keep c | Ins c => [c] end) es.

Definition oldTextOf (ops : list DiffOp.t) : string :=
  fold_right (fun o acc => if DiffOp.added o then acc else (DiffOp.value o ++ acc)%string)
    "" ops.

Definition newTextOf (ops : list DiffOp.t) : string :=
  fold_right (fun o acc => if DiffOp.removed o then acc else (DiffOp.value o ++ acc)%string)
    "" ops.

(** ** Sample documents *)

(** A document of one block holding one text node, key [k]. *)
Definition oneNode (k : Key) (leaves : list Leaf.t) : Document.t :=
  Document.mk [Block.mk "b" [Text.mk k leaves]].

(** A cursor at offset [o] of node [k]. *)
Definition cursorAt (k : Key) (o : Z) : Range.t :=
  Range.mk k o k o (Some false).

(** A change that starts from document [d] and selection [sel]. *)
Definition changeOf (d : Document.t) (sel : Range.t) : Change.t :=
  Change.mk (Value.mk d sel) [].

(** The DOM text node that shows node [k] from its first character on,
    with [content] as its text. *)
Definition domText (k : Key) (content : string) : Dom.node :=
  Dom.mkNode content (Some k) 0.

(** [window.getSelection()] when the caret is in that DOM text node, at
    offset [o]. *)
Definition caretIn (k : Key) (content : string) (o : Z) : Dom.selection :=
  Dom.mkSelection (domText k content) o.

(** A DOM node that the editor did not render. *)
Definition foreignNode (content : string) : Dom.node :=
  Dom.mkNode content None 0.

(** The new line character, as a string. *)
Definition newline : string := String "010" "".

(** A node [t] with the single unmarked leaf [s]. *)
Definition plainText (s : string) : Document.t := oneNode "t" [Leaf.mk s []].

(** Diff ops, by tag. *)
Definition unchangedOp (s : string) : DiffOp.t := DiffOp.mk (Js.length s) false false s.
Definition removedOp (s : string) : DiffOp.t := DiffOp.mk (Js.length s) false true s.
Definition addedOp (s : string) : DiffOp.t := DiffOp.mk (Js.length s) true false s.

(** A node [t] of three leaves, the middle one bold. *)
Definition threeLeaves : Document.t :=
  oneNode "t" [Leaf.mk "say " []; Leaf.mk "helo" ["bold"]; Leaf.mk " now" []].

(** ** The two halves of [onInput]

    [onInput] first finds what the notification is about (lines 132 to
    169) and then decides what to do with it (lines 171 to 200).  The
    properties below are stated on what the first half found. *)

(** What the first half of [onInput] leaves in its local variables. *)
Module Context.
Record t := mk {
  point : Point.t;
  node : Text.t;
  index : nat;
  leaf : Leaf.t;
  start : Z;
  end_ : Z;
  isLastText : bool;
  isLastLeaf : bool;
  textContent : string
}.

(** [text], the model text of the leaf *)
Definition text (c : t) : string := Leaf.text (leaf c).
End Context.

Inductive Resolution :=
| NoPoint
| Failed (e : Js.error)
| Resolved (ctx : Context.t).

Section Halves.

Variable IS_ANDROID : bool.
Variable diffChars : string -> string -> list DiffOp.t.
Variable findPoint : Dom.node -> Z -> Value.t -> option Point.t.

(** Lines 132 to 169. *)
Definition resolve (native : Dom.selection) (change : Change.t) : Resolution :=
  let value := Change.value change in
  match findPoint (Dom.anchorNode native) (Dom.anchorOffset native) value with
  | None => NoPoint
  | Some point =>
  match Document.getDescendant (Value.document value) (Point.key point) with
  | None => Failed Js.TypeError
  | Some node =>
  match Document.getClosestBlock (Value.document value) (Text.key node) with
  | None => Failed Js.TypeError
  | Some block =>
  let leaves := Text.getLeaves node in
  let lastLeaf := lastLeafOf leaves in
  let '(found, start, end_) := findLeaf (Point.offset point) leaves 0 0 0 in
  match (match found with Some l => Some l | None => lastLeaf end) with
  | None => Failed Js.TypeError
  | Some (index, leaf) =>
  let isLastText :=
    match Block.getLastText block with
    | Some t => String.eqb (Text.key node) (Text.key t)
    | None => false
    end in
  let isLastLeaf :=
    match lastLeaf with
    | Some (last, _) => Nat.eqb index last
    | None => false
    end in
  Resolved
    (Context.mk point node index leaf start end_ isLastText isLastLeaf
       (observedText (Dom.textContent (Dom.anchorNode native)) isLastText isLastLeaf))
  end end end end.

(** Lines 171 to 200. *)
Definition reconcile (change : Change.t) (ctx : Context.t) : Completion * Change.t :=
  let text := Context.text ctx in
  let textContent := Context.textContent ctx in
  let replaced :=
    updateTextAndSelection change textContent text (Context.point ctx)
      (Context.start ctx) (Context.end_ ctx) (Leaf.marks (Context.leaf ctx)) in
  if String.eqb textContent text then (Return Js.undefined, change)
  else if IS_ANDROID then
    let diffs := diffChars text textContent in
    if 0 <? Z.of_nat (List.length diffs) then
      match nth_error diffs 0, nth_error diffs 1 with
      | Some _, Some d1 =>
          if DiffOp.removed d1 then
            if DiffOp.count d1 =? 1
            then (Return Js.false, Change.deleteCharBackward change)
            else (Return Js.false, replaced)
          else (Return Js.false, change)
      | _, _ => (Throw Js.TypeError, change)
      end
    else (Return Js.false, change)
  else (Return Js.false, replaced).

End Halves.

(** The leaf [leaf] is the one at [index] in [leaves] and spans the
    offsets from [start] to [end_] of the node. *)
Definition leafSpan (leaves : list Leaf.t) (index : nat) (leaf : Leaf.t) (start end_ : Z)
  : Prop :=
  nth_error leaves index = Some leaf
  /\ start = Z.of_nat (List.length (characters (firstn index leaves)))
  /\ end_ = start + Js.length (Leaf.text leaf).

(** The range that covers the offsets [start] to [end_] of node [k]. *)
Definition spanRange (k : Key) (start end_ : Z) : Range.t :=
  Range.mk k start k end_ (Some (end_ <? start)).

(** The leaves of a node are normal when none is empty and no two
    neighbours carry the same marks: the form in which [createLeaves]
    leaves them. *)
Fixpoint normalLeaves (ls : list Leaf.t) : bool :=
  match ls with
  | [] => true
  | l :: ls' =>
      negb (String.eqb (Leaf.text l) "")
      && match ls' with
         | [] => true
         | l' :: _ => negb (marks_eqb (Leaf.marks l) (Leaf.marks l'))
         end
      && normalLeaves ls'
  end.

(** The leaves of a node as [getLeaves] gives them: normal, or a single
    empty leaf when the node has no text. *)
Definition leavesAsRead (ls : list Leaf.t) : Prop :=
  normalLeaves ls = true \/ exists m, ls = [Leaf.mk "" m].

(** Two paragraphs, each with one text node: [s] reads [ab] and [t]
    reads [hello]. *)
Definition twoParagraphs : Document.t :=
  Document.mk [Block.mk "p" [Text.mk "s" [Leaf.mk "ab" []]];
               Block.mk "q" [Text.mk "t" [Leaf.mk "hello" []]]].

(** The DOM text node that shows the first leaf of [threeLeaves], once
    all of its text was deleted. *)
Definition emptiedCaret : Dom.selection :=
  Dom.mkSelection (Dom.mkNode "" (Some "t") 0) 0.

(** Every callback still queued captured a count that the plugin has
    reached. *)
Definition wellFormed (w : World) : Prop :=
  Forall (fun n => n <= compositionCount (state w)) (frames w).

(** The world of a plugin that was just created, on the change [c]. *)
Definition initialWorld (c : Change.t) : World := mkWorld initialState c [].

(** The caret after the fourth character of the DOM text node that shows
    the bold leaf of [threeLeaves], once an [l] was typed into it. *)
Definition boldCaret : Dom.selection :=
  Dom.mkSelection (Dom.mkNode "hello" (Some "t") 4) 4.

(** ** Vocabulary for traces *)

(** The call that inserts [s], when [s] is not empty. *)
Definition insertion (s : string) : list Change.call :=
  if String.eqb s "" then [] else [Change.InsertText s].

(** How many compositions start in a sequence of notifications. *)
Fixpoint countStarts (ns : list Notification) : Z :=
  match ns with
  | [] => 0
  | CompositionStart :: ns' => 1 + countStarts ns'
  | _ :: ns' => countStarts ns'
  end.

(** What holds of the closure variables and of the frame queue in every
    world the plugin can be in. *)
Definition tracked (w : World) : Prop :=
  0 <= compositionCount (state w)
  /\ wellFormed w
  /\ (isComposing (state w) = true \/ textToInsert (state w) <> "" ->
      0 < compositionCount (state w)).

(** A diff that agrees with [diffChars] but for its first op, which is
    replaced by an empty unchanged op. *)
Definition forgetFirst (diffChars : string -> string -> list DiffOp.t)
    (oldStr newStr : string) : list DiffOp.t :=
  match diffChars oldStr newStr with
  | [] => []
  | _ :: ops => DiffOp.mk 0 false false "" :: ops
  end.

(** * Properties *)

(** ** JavaScript strings *)

Lemma length_append (s t : string) :
  String.length (s ++ t) = (String.length s + String.length t)%nat.
Proof.
  induction s as [|c s IH]; simpl; [reflexivity|].
  now rewrite IH.
Qed.

Lemma get_append_end (s : string) (c : ascii) (t : string) :
  String.get (String.length s) (s ++ String c t) = Some c.
Proof.
  induction s as [|a s IH]; simpl; [reflexivity | exact IH].
Qed.

Lemma substring_append_start (s t : string) :
  String.substring 0 (String.length s) (s ++ t) = s.
Proof.
  induction s as [|a s IH]; simpl.
  - destruct t; reflexivity.
  - now rewrite IH.
Qed.

Lemma js_length_append (s t : string) :
  Js.length (s ++ t) = Js.length s + Js.length t.
Proof.
  unfold Js.length. rewrite length_append. lia.
Qed.

Lemma js_length_nonneg (s : string) : 0 <= Js.length s.
Proof. unfold Js.length. lia. Qed.

(** The last character of a string that ends in [c]. *)
Lemma charAt_last (s : string) (c : ascii) :
  Js.charAt (s ++ String c "") (Js.length (s ++ String c "") - 1) = String c "".
Proof.
  unfold Js.charAt.
  rewrite js_length_append.
  assert (H : Js.length s + Js.length (String c "") - 1 = Js.length s)
    by (unfold Js.length; simpl; lia).
  rewrite H.
  destruct (Js.length s <? 0) eqn:E.
  - apply Z.ltb_lt in E. pose proof (js_length_nonneg s). lia.
  - unfold Js.length. rewrite Nat2Z.id, get_append_end. reflexivity.
Qed.

(** [slice(0, -1)] drops the last character. *)
Lemma slice_drop_last (s : string) (c : ascii) :
  Js.slice (s ++ String c "") 0 (-1) = s.
Proof.
  unfold Js.slice, Js.relativeIndex.
  rewrite js_length_append.
  assert (H1 : Js.length (String c "") = 1) by reflexivity.
  rewrite H1.
  pose proof (js_length_nonneg s) as Hs.
  change (0 <? 0) with false. change (-1 <? 0) with true. cbv iota.
  replace (Z.min 0 (Js.length s + 1)) with 0 by lia.
  replace (Z.max (Z.max (Js.length s + 1 + -1) 0 - 0) 0) with (Js.length s) by lia.
  unfold Js.length. rewrite Nat2Z.id. simpl Z.to_nat.
  apply substring_append_start.
Qed.

(** The compensation, on a text that ends in a new line. *)
Lemma observedText_strips (s : string) :
  observedText (s ++ String "010" "") true true = s.
Proof.
  unfold observedText.
  rewrite charAt_last. simpl. apply slice_drop_last.
Qed.

(** Without the two flags, or without a final new line, the text is
    kept. *)
Lemma observedText_keeps (s : string) (isLastText isLastLeaf : bool) :
  isLastText && isLastLeaf = false -> observedText s isLastText isLastLeaf = s.
Proof.
  unfold observedText. intros ->. reflexivity.
Qed.

(** ** The two halves make [onInput] *)

Lemma onInput_halves (IS_ANDROID : bool) diffChars findPoint native change :
  onInput IS_ANDROID diffChars findPoint native change =
  match resolve findPoint native change with
  | NoPoint => (Return Js.undefined, change)
  | Failed e => (Throw e, change)
  | Resolved ctx => reconcile IS_ANDROID diffChars change ctx
  end.
Proof.
  unfold onInput, resolve.
  destruct (findPoint _ _ _) as [point|]; [|reflexivity].
  destruct (Document.getDescendant _ _) as [node|]; [|reflexivity].
  destruct (Document.getClosestBlock _ _) as [block|]; [|reflexivity].
  destruct (findLeaf _ _ _ _ _) as [[found start] end_].
  destruct (match found with Some l => Some l | None => _ end) as [[index leaf]|];
    [|reflexivity].
  unfold reconcile, Context.text. cbn [Context.textContent Context.leaf Context.point
    Context.start Context.end_].
  destruct (String.eqb _ _); [reflexivity|].
  destruct IS_ANDROID; [|reflexivity].
  destruct (0 <? _); [|reflexivity].
  destruct (nth_error (diffChars _ _) 0); [|reflexivity].
  destruct (nth_error (diffChars _ _) 1); reflexivity.
Qed.

(** ** The character diff is an edit script of its two arguments *)

Lemma editScript_cons_cons (x : ascii) xs (y : ascii) ys :
  editScript (x :: xs) (y :: ys)
  = if Ascii.eqb x y then Keep x :: editScript xs ys
    else
      let viaDel := Del x :: editScript xs (y :: ys) in
      let viaIns := Ins y :: editScript (x :: xs) ys in
      if (scriptCost viaDel <=? scriptCost viaIns)%nat then viaDel else viaIns.
Proof. reflexivity. Qed.

Lemma editScript_nil_r (xs : list ascii) : editScript xs [] = map Del xs.
Proof. destruct xs; reflexivity. Qed.

Lemma editScript_spells (xs ys : list ascii) :
  oldChars (editScript xs ys) = xs /\ newChars (editScript xs ys) = ys.
Proof.
  revert ys. induction xs as [|x xs IHx]; intros ys.
  - cbn. induction ys as [|y ys [IH1 IH2]]; cbn; [auto|].
    split; [exact IH1 | now f_equal].
  - induction ys as [|y ys [IHy1 IHy2]].
    + rewrite editScript_nil_r. clear IHx.
      induction (x :: xs) as [|a l [IH1 IH2]]; cbn; [auto|].
      split; [now f_equal | exact IH2].
    + rewrite editScript_cons_cons.
      destruct (Ascii.eqb x y) eqn:E.
      * apply Ascii.eqb_eq in E as <-.
        destruct (IHx ys) as [H1 H2]. cbn. split; now f_equal.
      * cbv zeta. destruct (_ <=? _)%nat.
        -- destruct (IHx (y :: ys)) as [H1 H2]. cbn. split; [now f_equal | exact H2].
        -- cbn. split; [exact IHy1 | now f_equal].
Qed.

Lemma oldChars_cons (e : Edit) (es : list Edit) :
  oldChars (e :: es)
  = (match e with Ins _ => [] | Keep c | Del c => [c] end ++ oldChars es)%list.
Proof. reflexivity. Qed.

Lemma newChars_cons (e : Edit) (es : list Edit) :
  newChars (e :: es)
  = (match e with Del _ => [] | Keep c | Ins c => [c] end ++ newChars es)%list.
Proof. reflexivity. Qed.

Lemma joinOps_spells (es : list Edit) :
  oldTextOf (joinOps es) = string_of_list_ascii (oldChars es)
  /\ newTextOf (joinOps es) = string_of_list_ascii (newChars es).
Proof.
  induction es as [|e es [IH1 IH2]]; [split; reflexivity|].
  rewrite oldChars_cons, newChars_cons.
  cbn [joinOps]. destruct (joinOps es) as [|[n a r v] ps].
  - destruct e; cbn [app string_of_list_ascii]; rewrite <- IH1, <- IH2;
      split; reflexivity.
  - unfold oldTextOf, newTextOf in IH1, IH2.
    cbn [fold_right DiffOp.added DiffOp.removed DiffOp.value] in IH1, IH2.
    destruct e; cbn [app string_of_list_ascii]; rewrite <- IH1, <- IH2;
      destruct a, r; split; reflexivity.
Qed.

(** What [lcsDiffChars] returns spells the old text with its unchanged
    and removed ops and the new text with its unchanged and added ops. *)
Lemma lcsDiffChars_spells (oldStr newStr : string) :
  oldTextOf (lcsDiffChars oldStr newStr) = oldStr
  /\ newTextOf (lcsDiffChars oldStr newStr) = newStr.
Proof.
  unfold lcsDiffChars.
  destruct (joinOps_spells (editScript (list_ascii_of_string oldStr)
                              (list_ascii_of_string newStr))) as [H1 H2].
  destruct (editScript_spells (list_ascii_of_string oldStr)
              (list_ascii_of_string newStr)) as [E1 E2].
  rewrite H1, H2, E1, E2. split; apply string_of_list_ascii_of_string.
Qed.

(** ** Leaves and characters *)

Lemma length_list_ascii (s : string) :
  List.length (list_ascii_of_string s) = String.length s.
Proof.
  induction s as [|c s IH]; simpl; [reflexivity | now rewrite IH].
Qed.

Lemma length_markedChars (s : string) (m : Marks) :
  Z.of_nat (List.length (markedChars s m)) = Js.length s.
Proof.
  unfold markedChars, Js.length. now rewrite length_map, length_list_ascii.
Qed.

Lemma characters_app (a b : list Leaf.t) :
  characters (a ++ b) = (characters a ++ characters b)%list.
Proof. apply flat_map_app. Qed.

Lemma characters_cons (l : Leaf.t) (ls : list Leaf.t) :
  characters (l :: ls) = (leafChars l ++ characters ls)%list.
Proof. reflexivity. Qed.

Lemma characters_groupChars (cs : list Character.t) :
  characters (groupChars cs) = cs.
Proof.
  induction cs as [|[c m] cs IH]; [reflexivity|].
  simpl. destruct (groupChars cs) as [|[t lm] ls] eqn:G.
  - simpl in IH. now subst cs.
  - cbn [Leaf.marks Leaf.text Character.marks Character.char].
    unfold marks_eqb. destruct (list_eq_dec string_dec m lm) as [->|_].
    + rewrite <- IH. reflexivity.
    + rewrite <- IH. reflexivity.
Qed.

Lemma characters_createLeaves (cs : list Character.t) :
  characters (createLeaves cs) = cs.
Proof.
  destruct cs; [reflexivity|]. apply characters_groupChars.
Qed.

(** The leaf that [find] stops at, and the offsets it leaves. *)
Lemma findLeaf_found (offset : Z) (leaves : list Leaf.t) :
  forall index start end_ i leaf s e,
    findLeaf offset leaves index start end_ = (Some (i, leaf), s, e) ->
    exists pre post,
      leaves = (pre ++ leaf :: post)%list
      /\ i = (index + List.length pre)%nat
      /\ s = end_ + Z.of_nat (List.length (characters pre))
      /\ e = s + Js.length (Leaf.text leaf).
Proof.
  induction leaves as [|r rest IH]; intros index start end_ i leaf s e H; simpl in H.
  - discriminate.
  - destruct (offset <=? end_ + Js.length (Leaf.text r)) eqn:E.
    + injection H as <- <- <- <-.
      exists [], rest. simpl. repeat split; lia.
    + apply IH in H as (pre & post & -> & -> & -> & ->).
      exists (r :: pre), post. simpl.
      repeat split; try lia.
      rewrite length_app. unfold leafChars.
      pose proof (length_markedChars (Leaf.text r) (Leaf.marks r)). lia.
Qed.

(** When [find] runs through, the offsets are those of the last leaf. *)
Lemma findLeaf_none (offset : Z) (leaves : list Leaf.t) :
  forall index start end_ s e,
    findLeaf offset leaves index start end_ = (None, s, e) ->
    (leaves = [] /\ s = start /\ e = end_)
    \/ exists pre l,
         leaves = (pre ++ [l])%list
         /\ s = end_ + Z.of_nat (List.length (characters pre))
         /\ e = s + Js.length (Leaf.text l).
Proof.
  induction leaves as [|r rest IH]; intros index start end_ s e H; simpl in H.
  - injection H as <- <-. left. auto.
  - destruct (offset <=? end_ + Js.length (Leaf.text r)) eqn:E; [discriminate|].
    right. apply IH in H as [(-> & -> & ->) | (pre & l & -> & -> & ->)].
    + exists [], r. simpl. repeat split; lia.
    + exists (r :: pre), l. simpl. repeat split; try lia.
      rewrite length_app. unfold leafChars.
      pose proof (length_markedChars (Leaf.text r) (Leaf.marks r)). lia.
Qed.

Lemma lastLeafOf_snoc (pre : list Leaf.t) (l : Leaf.t) :
  lastLeafOf (pre ++ [l]) = Some (List.length pre, l).
Proof.
  unfold lastLeafOf. rewrite rev_app_distr. simpl.
  rewrite length_app. simpl. f_equal. f_equal. lia.
Qed.

Lemma lastLeafOf_nil : lastLeafOf [] = None.
Proof. reflexivity. Qed.

Lemma leafSpan_middle (pre post : list Leaf.t) (leaf : Leaf.t) :
  leafSpan (pre ++ leaf :: post) (List.length pre) leaf
    (Z.of_nat (List.length (characters pre)))
    (Z.of_nat (List.length (characters pre)) + Js.length (Leaf.text leaf)).
Proof.
  unfold leafSpan. repeat split.
  - rewrite nth_error_app2 by lia. now rewrite Nat.sub_diag.
  - rewrite firstn_app, firstn_all, Nat.sub_diag. simpl. now rewrite app_nil_r.
Qed.

(** The leaf chosen by [find(...) || lastLeaf], with [start] and [end]. *)
Lemma chosen_leaf_span (offset : Z) (leaves : list Leaf.t) found start end_ index leaf :
  findLeaf offset leaves 0 0 0 = (found, start, end_) ->
  match found with Some l => Some l | None => lastLeafOf leaves end = Some (index, leaf) ->
  leafSpan leaves index leaf start end_.
Proof.
  intros F C. destruct found as [[i l]|].
  - injection C as -> ->.
    apply findLeaf_found in F as (pre & post & -> & -> & -> & ->).
    simpl. apply leafSpan_middle.
  - apply findLeaf_none in F as [(-> & _ & _) | (pre & l & -> & -> & ->)].
    + discriminate.
    + rewrite lastLeafOf_snoc in C. injection C as <- <-.
      simpl. apply leafSpan_middle.
Qed.

(** Replacing the span of a leaf keeps the characters of the leaves
    before and after it. *)
Lemma splice_leaf (k : Key) (leaves : list Leaf.t) index leaf start end_ new :
  leafSpan leaves index leaf start end_ ->
  characters (Text.leaves (Text.splice (Text.mk k leaves) start (Z.max start end_) new))
  = (characters (firstn index leaves) ++ new ++ characters (skipn (S index) leaves))%list.
Proof.
  intros (Hnth & -> & ->).
  unfold Text.splice. cbn [Text.leaves Text.key].
  rewrite characters_createLeaves.
  destruct (nth_error_split _ _ Hnth) as (pre & post & -> & <-).
  rewrite firstn_app, firstn_all, Nat.sub_diag. simpl firstn. rewrite app_nil_r.
  replace (skipn (S (List.length pre)) (pre ++ leaf :: post)) with post.
  2:{ rewrite skipn_app, skipn_all2 by lia.
      replace (S (List.length pre) - List.length pre)%nat with 1%nat by lia.
      reflexivity. }
  rewrite characters_app, characters_cons.
  pose proof (js_length_nonneg (Leaf.text leaf)) as Hl.
  rewrite Z.max_r by lia.
  rewrite Nat2Z.id.
  rewrite firstn_app, firstn_all, Nat.sub_diag. simpl firstn. rewrite app_nil_r.
  f_equal. f_equal.
  rewrite <- (length_markedChars (Leaf.text leaf) (Leaf.marks leaf)).
  rewrite <- Nat2Z.inj_add, Nat2Z.id.
  rewrite skipn_app, skipn_all2 by lia.
  replace (List.length (characters pre) + List.length (markedChars (Leaf.text leaf) (Leaf.marks leaf))
           - List.length (characters pre))%nat
    with (List.length (leafChars leaf)) by (unfold leafChars; lia).
  rewrite skipn_app, skipn_all, Nat.sub_diag. reflexivity.
Qed.

(** Normal leaves are what grouping their characters gives back. *)
Lemma groupChars_run (s : string) (m : Marks) (rest : list Character.t) (ls : list Leaf.t) :
  s <> "" ->
  groupChars rest = ls ->
  match ls with
  | [] => True
  | l' :: _ => marks_eqb m (Leaf.marks l') = false
  end ->
  groupChars (markedChars s m ++ rest) = Leaf.mk s m :: ls.
Proof.
  intros Hs G Hm. induction s as [|c s IH]; [contradiction|].
  destruct s as [|c' s].
  - cbn. rewrite G. destruct ls as [|l' ls']; [reflexivity|].
    cbn. now rewrite Hm.
  - change (markedChars (String c (String c' s)) m ++ rest)%list
      with (Character.mk c m :: (markedChars (String c' s) m ++ rest))%list.
    cbn [groupChars]. rewrite IH by discriminate.
    cbn. unfold marks_eqb. destruct (list_eq_dec string_dec m m); [reflexivity|contradiction].
Qed.

Lemma groupChars_normal (ls : list Leaf.t) :
  normalLeaves ls = true -> groupChars (characters ls) = ls.
Proof.
  induction ls as [|[t m] ls IH]; [reflexivity|].
  cbn [normalLeaves Leaf.text Leaf.marks]. intros H.
  apply andb_prop in H as [H N]. apply andb_prop in H as [T M].
  rewrite characters_cons. unfold leafChars. cbn [Leaf.text Leaf.marks].
  apply groupChars_run.
  - apply negb_true_iff, String.eqb_neq in T. exact T.
  - auto.
  - destruct ls as [|l' ls']; [exact I|]. now apply negb_true_iff.
Qed.

Lemma createLeaves_normal (ls : list Leaf.t) :
  ls <> [] -> normalLeaves ls = true -> createLeaves (characters ls) = ls.
Proof.
  intros Hne N. unfold createLeaves.
  destruct (characters ls) eqn:C.
  - destruct ls as [|[[|c t] m] ls]; [contradiction | discriminate | discriminate].
  - rewrite <- C. now apply groupChars_normal.
Qed.

(** A normal sequence stays normal when the text of one leaf is replaced
    by another non-empty text. *)
Lemma normalLeaves_retext (pre post : list Leaf.t) (leaf : Leaf.t) (s : string) :
  s <> "" ->
  normalLeaves (pre ++ leaf :: post) = true ->
  normalLeaves (pre ++ Leaf.mk s (Leaf.marks leaf) :: post) = true.
Proof.
  intros Hs. apply String.eqb_neq in Hs.
  induction pre as [|p pre IH]; cbn [app normalLeaves Leaf.text Leaf.marks]; intros H.
  - apply andb_prop in H as [H N]. apply andb_prop in H as [_ M].
    now rewrite Hs, M, N.
  - apply andb_prop in H as [H N]. apply andb_prop in H as [T M].
    rewrite T, (IH N), andb_true_r. cbn.
    destruct pre; exact M.
Qed.

Lemma nth_error_firstn_skipn {A : Type} (l : list A) (i : nat) (x : A) :
  nth_error l i = Some x -> l = (firstn i l ++ x :: skipn (S i) l)%list.
Proof.
  revert i. induction l as [|a l IH]; intros [|i] H; try discriminate.
  - injection H as ->. reflexivity.
  - cbn in H. cbn. f_equal. now apply IH.
Qed.

(** On normal leaves, replacing the span of a leaf by a non-empty text
    with the marks of the leaf changes the text of that leaf and nothing
    else. *)
Lemma splice_leaf_normal (k : Key) (leaves : list Leaf.t) index leaf start end_ (s : string) :
  leafSpan leaves index leaf start end_ ->
  s <> "" ->
  normalLeaves leaves = true ->
  Text.leaves
    (Text.splice (Text.mk k leaves) start (Z.max start end_)
       (markedChars s (Leaf.marks leaf)))
  = (firstn index leaves ++ Leaf.mk s (Leaf.marks leaf) :: skipn (S index) leaves)%list.
Proof.
  intros S Hs N.
  pose proof (splice_leaf k leaves index leaf start end_
                (markedChars s (Leaf.marks leaf)) S) as H.
  unfold Text.splice in *. cbn [Text.leaves Text.key] in *.
  rewrite characters_createLeaves in H. rewrite H.
  change (markedChars s (Leaf.marks leaf)) with (leafChars (Leaf.mk s (Leaf.marks leaf))).
  rewrite <- characters_cons, <- characters_app.
  apply createLeaves_normal.
  - destruct (firstn index leaves); discriminate.
  - apply normalLeaves_retext; [exact Hs|].
    destruct S as (Hn & _). now rewrite <- (nth_error_firstn_skipn _ _ _ Hn).
Qed.

(** ** Documents *)

Lemma find_updateTexts (ns : list Text.t) (k : Key) (f : Text.t -> Text.t) (n : Text.t) :
  find (fun n => String.eqb (Text.key n) k) ns = Some n ->
  Text.key (f n) = k ->
  find (fun n => String.eqb (Text.key n) k) (Block.updateTexts ns k f) = Some (f n).
Proof.
  intros F K. induction ns as [|m ns IH]; simpl in *; [discriminate|].
  destruct (String.eqb (Text.key m) k) eqn:E.
  - injection F as ->. simpl. now rewrite K, String.eqb_refl.
  - simpl. rewrite E. auto.
Qed.

Lemma hasText_find (b : Block.t) (k : Key) (n : Text.t) :
  find (fun n => String.eqb (Text.key n) k) (Block.nodes b) = Some n ->
  Block.hasText b k = true.
Proof.
  unfold Block.hasText. intros F.
  apply find_some in F as [I E]. apply existsb_exists. eauto.
Qed.

(** The node that [updateText] rewrote is the one found afterwards. *)
Lemma getDescendant_updateText (d : Document.t) (k : Key) (f : Text.t -> Text.t) (n : Text.t) :
  Document.getDescendant d k = Some n ->
  Text.key (f n) = k ->
  Document.getDescendant (Document.updateText d k f) k = Some (f n).
Proof.
  destruct d as [bs]. unfold Document.getDescendant, Document.getClosestBlock,
    Document.updateText. cbn [Document.nodes].
  intros G K. induction bs as [|b bs IH]; simpl in *; [discriminate|].
  destruct (Block.hasText b k) eqn:E.
  - simpl. pose proof (find_updateTexts _ _ f _ G K) as F.
    assert (H : Block.hasText (Block.mk (Block.key b) (Block.updateTexts (Block.nodes b) k f)) k
                = true) by (eapply hasText_find; exact F).
    rewrite H. exact F.
  - simpl. rewrite E. auto.
Qed.

Lemma getDescendant_key (d : Document.t) (k : Key) (n : Text.t) :
  Document.getDescendant d k = Some n -> Text.key n = k.
Proof.
  unfold Document.getDescendant. destruct (Document.getClosestBlock d k); [|discriminate].
  intros F. apply find_some in F as [_ E]. now apply String.eqb_eq.
Qed.

(** ** Ranges *)

Lemma move_collapseToEnd (r : Range.t) (n : Z) :
  Range.move (Range.collapseToEnd r) n
  = cursorAt (Range.endKey r) (Range.endOffset r + n).
Proof.
  unfold Range.move, Range.moveFocus, Range.moveAnchor, Range.collapseToEnd, cursorAt.
  cbn. rewrite String.eqb_refl. now rewrite Z.ltb_irrefl.
Qed.

Lemma entire_range (r : Range.t) (k : Key) (start end_ : Z) :
  Range.moveFocusTo (Range.moveAnchorTo r k start) k end_ = spanRange k start end_.
Proof.
  unfold Range.moveFocusTo, Range.moveAnchorTo, spanRange. cbn.
  now rewrite String.eqb_refl.
Qed.

(** What [updateTextAndSelection] calls, and with what. *)
Lemma updateTextAndSelection_calls change textContent text point start end_ marks :
  Change.calls (updateTextAndSelection change textContent text point start end_ marks)
  = (Change.calls change
     ++ [Change.InsertTextAtRange (spanRange (Point.key point) start end_) textContent marks;
         Change.Select
           (cursorAt (Range.endKey (Value.selection (Change.value change)))
              (Range.endOffset (Value.selection (Change.value change))
               + (Js.length textContent - Js.length text)))])%list.
Proof.
  unfold updateTextAndSelection.
  rewrite move_collapseToEnd, entire_range. cbn. now rewrite <- app_assoc.
Qed.

(** ** What the first half of [onInput] found *)

Lemma resolve_resolved findPoint native change ctx :
  resolve findPoint native change = Resolved ctx ->
  findPoint (Dom.anchorNode native) (Dom.anchorOffset native) (Change.value change)
  = Some (Context.point ctx)
  /\ Document.getDescendant (Value.document (Change.value change))
       (Point.key (Context.point ctx)) = Some (Context.node ctx)
  /\ leafSpan (Text.leaves (Context.node ctx)) (Context.index ctx) (Context.leaf ctx)
       (Context.start ctx) (Context.end_ ctx)
  /\ Context.textContent ctx
     = observedText (Dom.textContent (Dom.anchorNode native))
         (Context.isLastText ctx) (Context.isLastLeaf ctx).
Proof.
  unfold resolve.
  destruct (findPoint _ _ _) as [point|]; [|discriminate].
  destruct (Document.getDescendant _ _) as [node|] eqn:G; [|discriminate].
  destruct (Document.getClosestBlock _ _) as [block|]; [|discriminate].
  destruct (findLeaf _ _ _ _ _) as [[found start] end_] eqn:F.
  destruct (match found with Some l => Some l | None => _ end) as [[index leaf]|] eqn:C;
    [|discriminate].
  intros H. injection H as <-. cbn.
  split; [reflexivity|]. split; [exact G|]. split; [|reflexivity].
  eapply chosen_leaf_span; eassumption.
Qed.

(** ** The second half, case by case *)

Section Reconcile.

Variable diffChars : string -> string -> list DiffOp.t.
Variables (change : Change.t) (ctx : Context.t).

Let text := Context.text ctx.
Let textContent := Context.textContent ctx.
Let replaced :=
  updateTextAndSelection change textContent text (Context.point ctx)
    (Context.start ctx) (Context.end_ ctx) (Leaf.marks (Context.leaf ctx)).

Lemma reconcile_equal (IS_ANDROID : bool) :
  textContent = text ->
  reconcile IS_ANDROID diffChars change ctx = (Return Js.undefined, change).
Proof.
  unfold reconcile. fold text textContent. intros ->.
  now rewrite String.eqb_refl.
Qed.

Lemma reconcile_default :
  textContent <> text ->
  reconcile false diffChars change ctx = (Return Js.false, replaced).
Proof.
  unfold reconcile. fold text textContent. intros H.
  apply String.eqb_neq in H. now rewrite H.
Qed.

(** Android, a diff of at least two ops: the second op decides. *)
Lemma reconcile_android_second (d1 : DiffOp.t) :
  textContent <> text ->
  nth_error (diffChars text textContent) 1 = Some d1 ->
  reconcile true diffChars change ctx =
  (Return Js.false,
   if DiffOp.removed d1
   then if DiffOp.count d1 =? 1 then Change.deleteCharBackward change else replaced
   else change).
Proof.
  unfold reconcile. fold text textContent. intros H N.
  apply String.eqb_neq in H. rewrite H.
  destruct (diffChars text textContent) as [|d0 [|d ds]]; try discriminate.
  injection N as ->. cbn.
  destruct (DiffOp.removed d1); [destruct (DiffOp.count d1 =? 1)|]; reflexivity.
Qed.

(** Android, a diff of one op: [diffs[1]] is [undefined]. *)
Lemma reconcile_android_single (d0 : DiffOp.t) :
  textContent <> text ->
  diffChars text textContent = [d0] ->
  reconcile true diffChars change ctx = (Throw Js.TypeError, change).
Proof.
  unfold reconcile. fold text textContent. intros H D.
  apply String.eqb_neq in H. rewrite H, D. reflexivity.
Qed.

(** Android, an empty diff. *)
Lemma reconcile_android_empty :
  textContent <> text ->
  diffChars text textContent = [] ->
  reconcile true diffChars change ctx = (Return Js.false, change).
Proof.
  unfold reconcile. fold text textContent. intros H D.
  apply String.eqb_neq in H. rewrite H, D. reflexivity.
Qed.

End Reconcile.

(** On Android, a second op that removes one character makes [onInput]
    call [deleteCharBackward] on the change as it stands: the deletion is
    at the selection the change has. *)
Lemma android_backspace diffChars findPoint native change ctx d1 :
  resolve findPoint native change = Resolved ctx ->
  Context.textContent ctx <> Context.text ctx ->
  nth_error (diffChars (Context.text ctx) (Context.textContent ctx)) 1 = Some d1 ->
  DiffOp.removed d1 = true ->
  DiffOp.count d1 = 1 ->
  onInput true diffChars findPoint native change
  = (Return Js.false, Change.deleteCharBackward change).
Proof.
  intros R D N Hr Hc.
  rewrite onInput_halves, R, (reconcile_android_second _ _ _ d1 D N), Hr, Hc.
  reflexivity.
Qed.

(** On Android, a diff of one op makes [onInput] throw. *)
Lemma android_single_op diffChars findPoint native change ctx d0 :
  resolve findPoint native change = Resolved ctx ->
  Context.textContent ctx <> Context.text ctx ->
  diffChars (Context.text ctx) (Context.textContent ctx) = [d0] ->
  onInput true diffChars findPoint native change = (Throw Js.TypeError, change).
Proof.
  intros R D N.
  rewrite onInput_halves, R. now apply (reconcile_android_single _ _ _ d0).
Qed.

(** ** The composition tracker *)

Lemma frameCallback_count (n : Z) (st : PluginState) :
  compositionCount (frameCallback n st) = compositionCount st.
Proof. unfold frameCallback. destruct (n <? _); reflexivity. Qed.

Lemma frameCallback_stale (n : Z) (st : PluginState) :
  n < compositionCount st -> frameCallback n st = st.
Proof. unfold frameCallback. intros H. apply Z.ltb_lt in H. now rewrite H. Qed.

Lemma frameCallback_current (n : Z) (st : PluginState) :
  compositionCount st <= n -> isComposing (frameCallback n st) = false.
Proof.
  unfold frameCallback. intros H.
  destruct (n <? compositionCount st) eqn:E; [apply Z.ltb_lt in E; lia | reflexivity].
Qed.

Lemma runFrames_count (fr : FrameQueue) (st : PluginState) :
  compositionCount (runFrames fr st) = compositionCount st.
Proof.
  unfold runFrames. revert st.
  induction fr as [|n fr IH]; intros st; simpl; [reflexivity|].
  now rewrite IH, frameCallback_count.
Qed.

Lemma runFrames_stale (fr : FrameQueue) (st : PluginState) :
  Forall (fun n => n < compositionCount st) fr -> runFrames fr st = st.
Proof.
  unfold runFrames. induction 1 as [|n fr H _ IH]; simpl; [reflexivity|].
  now rewrite frameCallback_stale.
Qed.

Section Tracker.

Variable IS_ANDROID : bool.
Variable diffChars : string -> string -> list DiffOp.t.
Variable findPoint : Dom.node -> Z -> Value.t -> option Point.t.

Let deliver := step IS_ANDROID diffChars findPoint.
Let deliverAll := run IS_ANDROID diffChars findPoint.

Lemma onCompositionEnd_count event st fr :
  compositionCount (fst (onCompositionEnd IS_ANDROID event st fr)) = compositionCount st.
Proof.
  unfold onCompositionEnd. cbn.
  destruct (IS_ANDROID && isComposing st); [|reflexivity].
  destruct (negb _); reflexivity.
Qed.

Lemma onBeforeInput_count event c st :
  compositionCount (snd (onBeforeInput IS_ANDROID event c st)) = compositionCount st.
Proof.
  unfold onBeforeInput.
  destruct IS_ANDROID; [|reflexivity].
  destruct (negb (String.eqb (textToInsert st) "")); reflexivity.
Qed.

(** The count never goes down. *)
Lemma step_count_mono (w : World) (n : Notification) :
  compositionCount (state w) <= compositionCount (state (deliver w n)).
Proof.
  unfold deliver. destruct n; unfold step.
  - cbn. lia.
  - pose proof (onCompositionEnd_count (Event.mk data false) (state w) (frames w)) as H.
    destruct (onCompositionEnd _ _ _ _) as [st fr]. cbn in *. lia.
  - pose proof (onBeforeInput_count (Event.mk data false) (change w) (state w)) as H.
    destruct (onBeforeInput _ _ _ _) as [[[v e] c] st]. cbn in *. lia.
  - cbn. lia.
  - cbn. rewrite runFrames_count. lia.
Qed.

Lemma run_count_mono (ns : list Notification) :
  forall w, compositionCount (state w) <= compositionCount (state (deliverAll w ns)).
Proof.
  unfold deliverAll, run.
  induction ns as [|n ns IH]; intros w; cbn [fold_left]; [lia|].
  specialize (IH (deliver w n)). pose proof (step_count_mono w n).
  unfold deliver in *. lia.
Qed.

(** Every queued callback captured a count that was reached. *)
Lemma step_wellFormed (w : World) (n : Notification) :
  wellFormed w -> wellFormed (deliver w n).
Proof.
  unfold wellFormed, deliver. intros H. destruct n; unfold step.
  - cbn. eapply Forall_impl; [|exact H]. cbn. intros; lia.
  - pose proof (onCompositionEnd_count (Event.mk data false) (state w) (frames w)) as E.
    assert (F : snd (onCompositionEnd IS_ANDROID (Event.mk data false) (state w) (frames w))
                = (frames w ++ [compositionCount (state w)])%list) by reflexivity.
    destruct (onCompositionEnd _ _ _ _) as [st fr]. cbn in *. subst fr. rewrite E.
    apply Forall_app. split; [exact H|]. constructor; [lia | constructor].
  - pose proof (onBeforeInput_count (Event.mk data false) (change w) (state w)) as E.
    destruct (onBeforeInput _ _ _ _) as [[[v e] c] st]. cbn in *. now rewrite E.
  - exact H.
  - constructor.
Qed.

Lemma run_wellFormed (ns : list Notification) :
  forall w, wellFormed w -> wellFormed (deliverAll w ns).
Proof.
  unfold deliverAll, run.
  induction ns as [|n ns IH]; intros w H; cbn [fold_left]; [exact H|].
  apply IH. apply (step_wellFormed w n H).
Qed.

End Tracker.

Lemma initialWorld_wellFormed (c : Change.t) : wellFormed (initialWorld c).
Proof. constructor. Qed.

(** * The composition tracker and the before-input path *)

(** C10: on a platform other than Android, [onCompositionEnd] leaves
    [textToInsert] as it was, whatever the event data and whether or not
    a composition is in progress; all it does is queue the reset. *)
Theorem onCompositionEnd_buffers_only_on_android
    (event : Event.t) (st : PluginState) (fr : FrameQueue) :
  onCompositionEnd false event st fr = (st, (fr ++ [compositionCount st])%list).
Proof. reflexivity. Qed.

(** C5: on Android, after a composition start, a composition end that
    carries the non-empty text [composed] and a before-input that carries
    [data], exactly one call was made on the change, the insertion of
    [composed ++ data], and [textToInsert] is empty again. *)
Theorem composition_buffer_round_trip
    diffChars findPoint (w : World) (composed data : string) :
  composed <> "" ->
  let w' := run true diffChars findPoint w
              [CompositionStart; CompositionEnd composed; BeforeInput data] in
  Change.calls (change w')
  = (Change.calls (change w) ++ [Change.InsertText (composed ++ data)])%list
  /\ Change.value (change w')
     = Change.typeText (Change.value (change w)) (composed ++ data)
  /\ textToInsert (state w') = "".
Proof.
  intros H. destruct w as [[count composing pending] c fr].
  cbn -[String.eqb String.append].
  unfold onCompositionEnd, onBeforeInput, onCompositionStart.
  cbn -[String.eqb String.append].
  apply String.eqb_neq in H. rewrite H.
  cbn -[String.eqb String.append]. rewrite H.
  destruct composed as [|a composed]; [discriminate|].
  cbn. repeat split; rewrite ?Bool.andb_false_r; reflexivity.
Qed.

Lemma composition_buffer_round_trip_witness :
  "teh" <> ""
  /\ let w := initialWorld (changeOf (plainText "") (cursorAt "t" 0)) in
     let w' := run true lcsDiffChars resolvePoint w
                 [CompositionStart; CompositionEnd "teh"; BeforeInput " "] in
     Change.calls (change w') = [Change.InsertText "teh "]
     /\ Change.value (change w')
        = Change.typeText (Change.value (change w)) "teh "
     /\ textToInsert (state w') = "".
Proof.
  split; [discriminate|].
  apply (composition_buffer_round_trip lcsDiffChars resolvePoint
           (initialWorld (changeOf (plainText "") (cursorAt "t" 0))) "teh" " ").
  discriminate.
Defined.

(** C6: in a world whose queued callbacks captured counts that were
    reached, let a composition start (generation [g]), end (the reset
    that captures [g] is queued) and a second composition start.  The
    reset for [g] then changes nothing, and after the rendering frame
    [isComposing] is still true.  In general a reset that captured a
    count [n] clears [isComposing] when the count is still [n] and
    changes nothing when it is not. *)
Theorem stale_reset_is_noop
    (IS_ANDROID : bool) diffChars findPoint (w : World) (data : string) :
  wellFormed w ->
  let g := compositionCount (state w) + 1 in
  let w3 := run IS_ANDROID diffChars findPoint w
              [CompositionStart; CompositionEnd data; CompositionStart] in
  compositionCount (state w3) = g + 1
  /\ frames w3 = (frames w ++ [g])%list
  /\ frameCallback g (state w3) = state w3
  /\ isComposing (state (step IS_ANDROID diffChars findPoint w3 AnimationFrame)) = true
  /\ (forall n st, n <= compositionCount st ->
        (compositionCount st = n -> isComposing (frameCallback n st) = false)
        /\ (compositionCount st <> n -> frameCallback n st = st)).
Proof.
  intros WF g w3.
  assert (C : compositionCount (state w3) = g + 1
              /\ frames w3 = (frames w ++ [g])%list
              /\ isComposing (state w3) = true).
  { subst w3 g. destruct w as [[count composing pending] c fr].
    cbn -[String.eqb]. unfold onCompositionEnd, onCompositionStart.
    cbn -[String.eqb].
    destruct IS_ANDROID; cbn -[String.eqb];
      [destruct (negb (String.eqb data ""))|]; cbn; auto. }
  destruct C as (C1 & C2 & C3). clearbody w3.
  split; [exact C1|]. split; [exact C2|].
  assert (S : frameCallback g (state w3) = state w3)
    by (apply frameCallback_stale; lia).
  split; [exact S|]. split.
  - cbn. rewrite runFrames_stale; [exact C3|].
    rewrite C2. apply Forall_app. split.
    + eapply Forall_impl; [|exact WF]. cbn. intros a Ha. subst g. lia.
    + constructor; [lia | constructor].
  - intros n st Hn. split; intros H.
    + apply frameCallback_current. lia.
    + apply frameCallback_stale. lia.
Qed.

Lemma stale_reset_is_noop_witness :
  wellFormed (initialWorld (changeOf (plainText "") (cursorAt "t" 0)))
  /\ let w3 := run true lcsDiffChars resolvePoint
                 (initialWorld (changeOf (plainText "") (cursorAt "t" 0)))
                 [CompositionStart; CompositionEnd "teh"; CompositionStart] in
     compositionCount (state w3) = 2
     /\ frames w3 = [1]
     /\ frameCallback 1 (state w3) = state w3
     /\ isComposing (state (step true lcsDiffChars resolvePoint w3 AnimationFrame)) = true.
Proof.
  split; [apply initialWorld_wellFormed|].
  pose proof (stale_reset_is_noop true lcsDiffChars resolvePoint
                (initialWorld (changeOf (plainText "") (cursorAt "t" 0))) "teh"
                (initialWorld_wellFormed _)) as (H1 & H2 & H3 & H4 & _).
  repeat split; assumption.
Defined.

(** ** Documents, updated *)

Section KeptKeys.

Variable f : Text.t -> Text.t.
Hypothesis f_key : forall n, Text.key (f n) = Text.key n.

Lemma map_key_updateTexts (ns : list Text.t) (k : Key) :
  map Text.key (Block.updateTexts ns k f) = map Text.key ns.
Proof.
  induction ns as [|m ns IH]; [reflexivity|]. cbn.
  destruct (String.eqb (Text.key m) k); cbn; [now rewrite f_key | now rewrite IH].
Qed.

Lemma hasText_updateTexts (b : Block.t) (k k' : Key) :
  Block.hasText (Block.mk (Block.key b) (Block.updateTexts (Block.nodes b) k f)) k'
  = Block.hasText b k'.
Proof.
  unfold Block.hasText. cbn [Block.nodes].
  induction (Block.nodes b) as [|m ns IH]; [reflexivity|]. cbn.
  destruct (String.eqb (Text.key m) k); cbn; [now rewrite f_key | now rewrite IH].
Qed.

Lemma find_updateTexts_other (ns : list Text.t) (k k' : Key) :
  k' <> k ->
  find (fun n => String.eqb (Text.key n) k') (Block.updateTexts ns k f)
  = find (fun n => String.eqb (Text.key n) k') ns.
Proof.
  intros N. induction ns as [|m ns IH]; [reflexivity|]. cbn.
  destruct (String.eqb (Text.key m) k) eqn:E; cbn.
  - rewrite f_key. apply String.eqb_eq in E. rewrite E.
    assert (X : String.eqb k k' = false) by (apply String.eqb_neq; congruence).
    now rewrite X.
  - now rewrite IH.
Qed.

(** The block of a key is at the same place after [updateText], updated
    or not. *)
Lemma getClosestBlock_updateText (d : Document.t) (k k' : Key) :
  match Document.getClosestBlock d k' with
  | Some b =>
      exists b',
        Document.getClosestBlock (Document.updateText d k f) k' = Some b'
        /\ (b' = b \/ b' = Block.mk (Block.key b) (Block.updateTexts (Block.nodes b) k f))
        /\ (k' = k -> b' = Block.mk (Block.key b) (Block.updateTexts (Block.nodes b) k f))
  | None => Document.getClosestBlock (Document.updateText d k f) k' = None
  end.
Proof.
  destruct d as [bs]. unfold Document.getClosestBlock, Document.updateText.
  cbn [Document.nodes].
  induction bs as [|b bs IH]; [reflexivity|]. cbn [find Document.updateBlocks].
  destruct (Block.hasText b k) eqn:Hk.
  - cbn [find]. rewrite hasText_updateTexts.
    destruct (Block.hasText b k') eqn:Hk'.
    + eexists. split; [reflexivity|]. split; auto.
    + destruct (find _ bs) as [b0|]; [|reflexivity].
      eexists. split; [reflexivity|]. split; [auto|].
      intros ->. congruence.
  - cbn [find]. destruct (Block.hasText b k') eqn:Hk'.
    + eexists. split; [reflexivity|]. split; [auto|]. intros ->. congruence.
    + exact IH.
Qed.

Lemma getDescendant_updateText_other (d : Document.t) (k k' : Key) :
  k' <> k ->
  Document.getDescendant (Document.updateText d k f) k' = Document.getDescendant d k'.
Proof.
  intros N. unfold Document.getDescendant.
  pose proof (getClosestBlock_updateText d k k') as H.
  destruct (Document.getClosestBlock d k') as [b|].
  - destruct H as (b' & -> & [->| ->] & _); [reflexivity|].
    cbn [Block.nodes]. now apply find_updateTexts_other.
  - now rewrite H.
Qed.

End KeptKeys.

Lemma updateTexts_twice (f g : Text.t -> Text.t) (ns : list Text.t) (k : Key) :
  (forall n, Text.key (f n) = Text.key n) ->
  Block.updateTexts (Block.updateTexts ns k f) k g
  = Block.updateTexts ns k (fun n => g (f n)).
Proof.
  intros Hf. induction ns as [|m ns IH]; [reflexivity|]. cbn.
  destruct (String.eqb (Text.key m) k) eqn:E; cbn.
  - now rewrite Hf, E.
  - now rewrite E, IH.
Qed.

(** Two updates of the same node are one. *)
Lemma updateText_twice (f g : Text.t -> Text.t) (d : Document.t) (k : Key) :
  (forall n, Text.key (f n) = Text.key n) ->
  Document.updateText (Document.updateText d k f) k g
  = Document.updateText d k (fun n => g (f n)).
Proof.
  intros Hf. destruct d as [bs]. unfold Document.updateText. cbn [Document.nodes].
  f_equal. induction bs as [|b bs IH]; [reflexivity|].
  cbn [Document.updateBlocks].
  destruct (Block.hasText b k) eqn:E; cbn [Document.updateBlocks].
  - rewrite (hasText_updateTexts f Hf), E. cbn [Block.key Block.nodes].
    now rewrite updateTexts_twice.
  - now rewrite E, IH.
Qed.

Lemma updateText_ext (f g : Text.t -> Text.t) (d : Document.t) (k : Key) :
  (forall n, f n = g n) -> Document.updateText d k f = Document.updateText d k g.
Proof.
  intros H. destruct d as [bs]. unfold Document.updateText. cbn [Document.nodes].
  f_equal. induction bs as [|b bs IH]; [reflexivity|]. cbn.
  destruct (Block.hasText b k); [|now rewrite IH].
  f_equal. f_equal. induction (Block.nodes b) as [|m ns IHn]; [reflexivity|]. cbn.
  destruct (String.eqb (Text.key m) k); [now rewrite H | now rewrite IHn].
Qed.

(** Deleting a span and inserting at its start is replacing the span. *)
Lemma splice_twice (n : Text.t) (s e : Z) (new : list Character.t) :
  s <= e ->
  Text.splice (Text.splice n s e []) s s new = Text.splice n s e new.
Proof.
  intros H. unfold Text.splice. cbn [Text.key Text.leaves].
  rewrite characters_createLeaves. f_equal. f_equal.
  set (cs := characters (Text.leaves n)).
  assert (L : (Z.to_nat s <= Z.to_nat e)%nat) by lia.
  set (a := Z.to_nat s) in *. set (b := Z.to_nat e) in *. cbn [app].
  rewrite firstn_app, skipn_app.
  destruct (Nat.le_gt_cases a (List.length cs)) as [Q|Q].
  - rewrite (firstn_all2 (firstn a cs)), (skipn_all2 (firstn a cs))
      by (rewrite length_firstn; lia).
    rewrite length_firstn, Nat.min_l, Nat.sub_diag by exact Q.
    cbn. now rewrite app_nil_r.
  - rewrite (skipn_all2 cs (n:=b)) by lia.
    rewrite firstn_nil, skipn_nil, !app_nil_r.
    rewrite (firstn_all2 cs (n:=a)) by lia.
    rewrite (firstn_all2 cs (n:=a)) by lia.
    rewrite (skipn_all2 cs (n:=a)) by lia. now rewrite ?app_nil_r.
Qed.

(** What [insertTextAtRange] does with the range of a leaf when the
    selection of the value starts in the node of the range: the span is
    replaced, in that node. *)
Lemma replaceRange_at_node (v : Value.t) (k : Key) (s e : Z) (text : string) (marks : Marks) :
  s <= e ->
  Range.startKey (Value.selection v) = k ->
  Change.replaceRange v (spanRange k s e) text marks
  = Value.mk
      (Document.updateText (Value.document v) k
         (fun n => Text.splice n s (Z.max s e) (markedChars text marks)))
      (Value.selection v).
Proof.
  intros H K.
  assert (E : (e <? s) = false) by (apply Z.ltb_ge; lia).
  assert (SK : Range.startKey (spanRange k s e) = k)
    by (unfold Range.startKey, Range.backward, spanRange; cbn; now rewrite E).
  assert (EK : Range.endKey (spanRange k s e) = k)
    by (unfold Range.endKey, Range.backward, spanRange; cbn; now rewrite E).
  assert (SO : Range.startOffset (spanRange k s e) = s)
    by (unfold Range.startOffset, Range.backward, spanRange; cbn; now rewrite E).
  assert (EO : Range.endOffset (spanRange k s e) = e)
    by (unfold Range.endOffset, Range.backward, spanRange; cbn; now rewrite E).
  assert (IC : Range.isCollapsed (spanRange k s e) = (s =? e))
    by (unfold Range.isCollapsed, spanRange; cbn; now rewrite String.eqb_refl).
  unfold Change.replaceRange. cbv zeta.
  rewrite SK, EK, SO, EO, IC, K, !String.eqb_refl.
  rewrite Z.max_r by exact H.
  destruct (s =? e) eqn:Q; cbn [negb andb].
  - apply Z.eqb_eq in Q. subst e. reflexivity.
  - rewrite updateText_twice by reflexivity.
    f_equal. apply updateText_ext. intros n. apply splice_twice, H.
Qed.

(** On leaves as [getLeaves] gives them, replacing the span of a leaf by
    a non-empty text with the marks of the leaf changes the text of that
    leaf and nothing else. *)
Lemma splice_leaf_read (k : Key) (leaves : list Leaf.t) index leaf start end_ (s : string) :
  leafSpan leaves index leaf start end_ ->
  s <> "" ->
  leavesAsRead leaves ->
  Text.leaves
    (Text.splice (Text.mk k leaves) start (Z.max start end_)
       (markedChars s (Leaf.marks leaf)))
  = (firstn index leaves ++ Leaf.mk s (Leaf.marks leaf) :: skipn (S index) leaves)%list.
Proof.
  intros Sp Hs [N|(m & ->)].
  - now apply splice_leaf_normal.
  - destruct Sp as (Hn & -> & ->).
    destruct index as [|index]; [|destruct index; discriminate].
    injection Hn as <-. cbn [Leaf.marks Leaf.text firstn skipn app].
    unfold Text.splice. cbn [Text.leaves Text.key].
    change (characters [Leaf.mk "" m]) with (@nil Character.t).
    rewrite firstn_nil, skipn_nil, app_nil_r. cbn [app].
    unfold createLeaves.
    destruct (markedChars s m) eqn:M.
    + destruct s; [contradiction | discriminate].
    + rewrite <- M, <- (app_nil_r (markedChars s m)).
      now apply groupChars_run.
Qed.

(** * The input path *)

(** C8: when the text read from the DOM, after the compensation for the
    trailing new line, equals the text of the leaf, [onInput] returns
    with the change as it was: no call was made on it, and the document
    and the selection are the same. *)
Theorem equal_text_no_mutation
    (IS_ANDROID : bool) diffChars findPoint native change ctx :
  resolve findPoint native change = Resolved ctx ->
  Context.textContent ctx = Context.text ctx ->
  onInput IS_ANDROID diffChars findPoint native change = (Return Js.undefined, change).
Proof.
  intros R E. rewrite onInput_halves, R. now apply reconcile_equal.
Qed.

Lemma equal_text_no_mutation_witness :
  let change := changeOf (plainText "hello") (cursorAt "t" 5) in
  let native := caretIn "t" ("hello" ++ newline) 5 in
  let ctx := Context.mk (Point.mk "t" 5) (Text.mk "t" [Leaf.mk "hello" []])
               0 (Leaf.mk "hello" []) 0 5 true true "hello" in
  resolve resolvePoint native change = Resolved ctx
  /\ Context.textContent ctx = Context.text ctx
  /\ onInput true lcsDiffChars resolvePoint native change = (Return Js.undefined, change).
Proof.
  intros change native ctx.
  assert (R : resolve resolvePoint native change = Resolved ctx) by reflexivity.
  assert (E : Context.textContent ctx = Context.text ctx) by reflexivity.
  split; [exact R|]. split; [exact E|].
  exact (equal_text_no_mutation true lcsDiffChars resolvePoint native change ctx R E).
Defined.

(** C9: when the leaf is the last leaf of the last text node of its
    block and the DOM text is [s] followed by a new line, the text that
    [onInput] compares is [s]: one new line is dropped, so that a DOM
    text ending in two new lines keeps one. *)
Theorem trailing_newline_stripped findPoint native change ctx (s : string) :
  resolve findPoint native change = Resolved ctx ->
  Context.isLastText ctx = true ->
  Context.isLastLeaf ctx = true ->
  Dom.textContent (Dom.anchorNode native) = (s ++ newline)%string ->
  Context.textContent ctx = s
  /\ (forall s', s = (s' ++ newline)%string ->
        Context.textContent ctx = (s' ++ newline)%string).
Proof.
  intros R T L D.
  apply resolve_resolved in R as (_ & _ & _ & ->).
  rewrite T, L, D. split.
  - apply observedText_strips.
  - intros s' ->. apply observedText_strips.
Qed.

Lemma trailing_newline_stripped_witness :
  let change := changeOf (plainText "hello") (cursorAt "t" 5) in
  let native := caretIn "t" (("hello" ++ newline) ++ newline) 6 in
  let ctx := Context.mk (Point.mk "t" 6) (Text.mk "t" [Leaf.mk "hello" []])
               0 (Leaf.mk "hello" []) 0 5 true true ("hello" ++ newline) in
  resolve resolvePoint native change = Resolved ctx
  /\ Context.isLastText ctx = true
  /\ Context.isLastLeaf ctx = true
  /\ Dom.textContent (Dom.anchorNode native) = (("hello" ++ newline) ++ newline)%string
  /\ Context.textContent ctx = ("hello" ++ newline)%string.
Proof.
  intros change native ctx.
  assert (R : resolve resolvePoint native change = Resolved ctx) by reflexivity.
  split; [exact R|]. repeat (split; [reflexivity|]).
  exact (proj1 (trailing_newline_stripped resolvePoint native change ctx
                  ("hello" ++ newline) R eq_refl eq_refl eq_refl)).
Defined.

(** C7, as stated, fails on two inputs, both off Android.  On
    [twoParagraphs] with the model cursor in node [s] and the DOM text of
    node [t] reading [hello!], the text of [t] is deleted and the observed
    text goes into [s], where the selection is: no leaf reads [hello!].
    On [threeLeaves] with the DOM text of the first leaf empty, that leaf
    is gone from the node: no leaf has the observed text. *)
Lemma replace_misses_leaf :
  let change := changeOf twoParagraphs (cursorAt "s" 1) in
  let r := onInput false lcsDiffChars resolvePoint (caretIn "t" "hello!" 6) change in
  let change' := changeOf threeLeaves (cursorAt "t" 0) in
  let r' := onInput false lcsDiffChars resolvePoint emptiedCaret change' in
  fst r = Return Js.false
  /\ Document.getDescendant (Value.document (Change.value (snd r))) "t"
     = Some (Text.mk "t" [Leaf.mk "" []])
  /\ Document.getDescendant (Value.document (Change.value (snd r))) "s"
     = Some (Text.mk "s" [Leaf.mk "ahello!b" []])
  /\ fst r' = Return Js.false
  /\ Document.getDescendant (Value.document (Change.value (snd r'))) "t"
     = Some (Text.mk "t" [Leaf.mk "helo" ["bold"]; Leaf.mk " now" []]).
Proof.
  vm_compute. repeat split.
Qed.

(** C7, amended: off Android, when the text read from the DOM differs
    from the text of the leaf, [onInput] returns [false] and leaves a
    change whose selection is the old selection collapsed to its end and
    moved by the difference of the two lengths.  When the old selection
    starts in the node of the point, the characters of the leaf are
    replaced by those of the observed text, each with the marks of the
    leaf, the leaves before and after it keeping their characters; and
    when moreover the observed text is not empty and the leaves are as
    [getLeaves] gives them, the node has the same leaves as before but
    for the text of that leaf, which is the observed text. *)
Theorem replace_correct diffChars findPoint native change ctx :
  resolve findPoint native change = Resolved ctx ->
  Context.textContent ctx <> Context.text ctx ->
  let k := Point.key (Context.point ctx) in
  let sel := Value.selection (Change.value change) in
  let leaves := Text.leaves (Context.node ctx) in
  let delta := Js.length (Context.textContent ctx) - Js.length (Context.text ctx) in
  let r := onInput false diffChars findPoint native change in
  fst r = Return Js.false
  /\ Value.selection (Change.value (snd r))
     = Range.move (Range.collapseToEnd sel) delta
  /\ Range.move (Range.collapseToEnd sel) delta
     = cursorAt (Range.endKey sel) (Range.endOffset sel + delta)
  /\ (Range.startKey sel = k ->
      exists node',
        Document.getDescendant (Value.document (Change.value (snd r))) k = Some node'
        /\ characters (Text.leaves node')
           = (characters (firstn (Context.index ctx) leaves)
              ++ markedChars (Context.textContent ctx) (Leaf.marks (Context.leaf ctx))
              ++ characters (skipn (S (Context.index ctx)) leaves))%list
        /\ (Context.textContent ctx <> "" -> leavesAsRead leaves ->
            Text.leaves node'
            = (firstn (Context.index ctx) leaves
               ++ Leaf.mk (Context.textContent ctx) (Leaf.marks (Context.leaf ctx))
               :: skipn (S (Context.index ctx)) leaves)%list)).
Proof.
  intros R D k sel leaves delta r.
  subst r. rewrite onInput_halves, R, reconcile_default by exact D.
  apply resolve_resolved in R as (_ & G & S & _).
  split; [reflexivity|]. split; [reflexivity|]. split; [apply move_collapseToEnd|].
  intros K.
  unfold updateTextAndSelection. rewrite entire_range.
  cbn [snd Change.select Change.insertTextAtRange Change.value Value.document].
  assert (E : Context.start ctx <= Context.end_ ctx).
  { destruct S as (_ & _ & ->).
    pose proof (js_length_nonneg (Leaf.text (Context.leaf ctx))). lia. }
  rewrite (replaceRange_at_node _ _ _ _ _ _ E K). cbn [Value.document].
  eexists. split.
  - apply getDescendant_updateText; [exact G|].
    cbn. apply (getDescendant_key _ _ _ G).
  - destruct (Context.node ctx) as [nk nl] eqn:N. cbn [Text.leaves] in S.
    subst leaves. cbn [Text.leaves]. split.
    + apply (splice_leaf nk nl _ _ _ _ _ S).
    + intros Hs Hn. now apply splice_leaf_read.
Qed.

Lemma replace_correct_witness :
  let change := changeOf threeLeaves (cursorAt "t" 7) in
  let ctx := Context.mk (Point.mk "t" 8)
               (Text.mk "t" [Leaf.mk "say " []; Leaf.mk "helo" ["bold"]; Leaf.mk " now" []])
               1 (Leaf.mk "helo" ["bold"]) 4 8 true false "hello" in
  let r := onInput false lcsDiffChars resolvePoint boldCaret change in
  resolve resolvePoint boldCaret change = Resolved ctx
  /\ Context.textContent ctx <> Context.text ctx
  /\ fst r = Return Js.false
  /\ Value.selection (Change.value (snd r)) = cursorAt "t" 8
  /\ Range.startKey (Value.selection (Change.value change)) = "t"
  /\ Document.getDescendant (Value.document (Change.value (snd r))) "t"
     = Some (Text.mk "t"
               [Leaf.mk "say " []; Leaf.mk "hello" ["bold"]; Leaf.mk " now" []]).
Proof.
  intros change ctx r.
  assert (R : resolve resolvePoint boldCaret change = Resolved ctx) by reflexivity.
  assert (D : Context.textContent ctx <> Context.text ctx) by discriminate.
  pose proof (replace_correct lcsDiffChars resolvePoint boldCaret change ctx R D)
    as (H1 & H2 & H3 & H4).
  fold r in H2.
  split; [exact R|]. split; [exact D|]. split; [exact H1|].
  split; [rewrite H2; exact H3|]. split; reflexivity.
Defined.

(** C1: the leaf reads [hello world], the DOM reads [hello orld] and the
    model selection is a cursor at offset 11.  The diff is an unchanged
    prefix of length 6, then a removal of one character.  [onInput] calls
    [deleteCharBackward] and nothing else: no call sets the selection, so
    the deletion happens at the cursor the model had, offset 11, and not
    at offset 6; the leaf ends as [hello worl]. *)
Theorem backspace_keeps_selection :
  let change := changeOf (plainText "hello world") (cursorAt "t" 11) in
  let r := onInput true lcsDiffChars resolvePoint (caretIn "t" "hello orld" 6) change in
  lcsDiffChars "hello world" "hello orld"
  = [unchangedOp "hello "; removedOp "w"; unchangedOp "orld"]
  /\ r = (Return Js.false, Change.deleteCharBackward change)
  /\ Change.calls (snd r) = [Change.DeleteCharBackward]
  /\ Value.document (Change.value (snd r)) = plainText "hello worl"
  /\ Value.selection (Change.value (snd r)) = cursorAt "t" 10.
Proof.
  vm_compute. repeat split.
Qed.

(** C3: on Android, the leaf reads [a] and the DOM text is empty.  The
    diff has the single op that removes [a], [diffs[1]] is [undefined],
    and [onInput] throws a [TypeError]. *)
Theorem single_op_diff_throws :
  let change := changeOf (plainText "a") (cursorAt "t" 1) in
  lcsDiffChars "a" "" = [removedOp "a"]
  /\ onInput true lcsDiffChars resolvePoint (caretIn "t" "" 0) change
     = (Throw Js.TypeError, change).
Proof.
  vm_compute. split; reflexivity.
Qed.

(** C2, as stated, fails: on Android, the leaf reads [helo] and the DOM
    reads [hello].  The diff only inserts, its second op is an addition,
    and [onInput] makes no call on the change at all. *)
Lemma insertion_gets_no_replace :
  let change := changeOf (plainText "helo") (cursorAt "t" 3) in
  let r := onInput true lcsDiffChars resolvePoint (caretIn "t" "hello" 4) change in
  lcsDiffChars "helo" "hello" = [unchangedOp "hel"; addedOp "l"; unchangedOp "o"]
  /\ r = (Return Js.false, change)
  /\ Change.calls (snd r) = []
  /\ ~ (exists range text marks,
          In (Change.InsertTextAtRange range text marks) (Change.calls (snd r))).
Proof.
  vm_compute. repeat split. intros (range & text & marks & []).
Qed.

(** C2, amended: on Android, when the text read from the DOM differs
    from the text of the leaf and the diff has a second op, that op
    decides.  If it is a removal of a count other than 1, the range of
    the leaf is replaced by the observed text with the marks of the leaf
    and the selection is set, in this order and with nothing else; if it
    is not a removal, no call is made on the change. *)
Theorem android_second_op_decides diffChars findPoint native change ctx d1 :
  resolve findPoint native change = Resolved ctx ->
  Context.textContent ctx <> Context.text ctx ->
  nth_error (diffChars (Context.text ctx) (Context.textContent ctx)) 1 = Some d1 ->
  let r := onInput true diffChars findPoint native change in
  let sel := Value.selection (Change.value change) in
  (DiffOp.removed d1 = true -> DiffOp.count d1 <> 1 ->
     r = (Return Js.false,
          updateTextAndSelection change (Context.textContent ctx) (Context.text ctx)
            (Context.point ctx) (Context.start ctx) (Context.end_ ctx)
            (Leaf.marks (Context.leaf ctx)))
     /\ Change.calls (snd r)
        = (Change.calls change
           ++ [Change.InsertTextAtRange
                 (spanRange (Point.key (Context.point ctx)) (Context.start ctx)
                    (Context.end_ ctx))
                 (Context.textContent ctx) (Leaf.marks (Context.leaf ctx));
               Change.Select
                 (cursorAt (Range.endKey sel)
                    (Range.endOffset sel
                     + (Js.length (Context.textContent ctx)
                        - Js.length (Context.text ctx))))])%list)
  /\ (DiffOp.removed d1 = false -> r = (Return Js.false, change)).
Proof.
  intros R D N r sel. subst r.
  rewrite onInput_halves, R, (reconcile_android_second _ _ _ d1 D N).
  split.
  - intros Hr Hc. rewrite Hr. apply Z.eqb_neq in Hc. rewrite Hc.
    split; [reflexivity|]. apply updateTextAndSelection_calls.
  - intros ->. reflexivity.
Qed.

Lemma android_second_op_decides_witness :
  let change := changeOf (plainText "hello world") (cursorAt "t" 11) in
  let native := caretIn "t" "hello" 5 in
  let ctx := Context.mk (Point.mk "t" 5) (Text.mk "t" [Leaf.mk "hello world" []])
               0 (Leaf.mk "hello world" []) 0 11 true true "hello" in
  let r := onInput true lcsDiffChars resolvePoint native change in
  resolve resolvePoint native change = Resolved ctx
  /\ Context.textContent ctx <> Context.text ctx
  /\ nth_error (lcsDiffChars (Context.text ctx) (Context.textContent ctx)) 1
     = Some (removedOp " world")
  /\ Change.calls (snd r)
     = [Change.InsertTextAtRange (spanRange "t" 0 11) "hello" [];
        Change.Select (cursorAt "t" 5)]
  /\ Value.document (Change.value (snd r)) = plainText "hello".
Proof.
  intros change native ctx r.
  assert (R : resolve resolvePoint native change = Resolved ctx) by reflexivity.
  assert (D : Context.textContent ctx <> Context.text ctx) by discriminate.
  assert (N : nth_error (lcsDiffChars (Context.text ctx) (Context.textContent ctx)) 1
              = Some (removedOp " world")) by reflexivity.
  destruct (android_second_op_decides lcsDiffChars resolvePoint native change ctx
              (removedOp " world") R D N) as [H _].
  destruct (H eq_refl) as [_ C]; [discriminate|].
  split; [exact R|]. split; [exact D|]. split; [exact N|].
  split; [exact C | reflexivity].
Defined.

(** C4, as stated, fails: when the DOM node is not one the editor
    rendered, the point does not resolve and [onInput] returns
    [undefined]; so it does when the DOM text equals the text of the
    leaf. *)
Lemma onInput_returns_undefined :
  let change := changeOf (plainText "hello") (cursorAt "t" 5) in
  fst (onInput true lcsDiffChars resolvePoint
         (Dom.mkSelection (foreignNode "hello!") 6) change) = Return Js.undefined
  /\ fst (onInput true lcsDiffChars resolvePoint (caretIn "t" "hello" 5) change)
     = Return Js.undefined
  /\ Return Js.undefined <> Return Js.false.
Proof.
  vm_compute. repeat split. discriminate.
Qed.

(** C4, amended: when [onInput] gets to the end of its body, it returns
    [false]; it returns [undefined] when the point does not resolve and
    when the text read from the DOM equals the text of the leaf, on
    either platform.  The statement leaves aside the calls in which the
    model lacks the node or its leaves and those in which the texts
    differ and the Android diff has a single op. *)
Theorem onInput_return_value
    (IS_ANDROID : bool) diffChars findPoint native change :
  (forall e, resolve findPoint native change <> Failed e) ->
  (forall ctx, resolve findPoint native change = Resolved ctx ->
     IS_ANDROID = true ->
     Context.textContent ctx <> Context.text ctx ->
     List.length (diffChars (Context.text ctx) (Context.textContent ctx)) <> 1%nat) ->
  fst (onInput IS_ANDROID diffChars findPoint native change)
  = match resolve findPoint native change with
    | Resolved ctx =>
        if String.eqb (Context.textContent ctx) (Context.text ctx)
        then Return Js.undefined
        else Return Js.false
    | _ => Return Js.undefined
    end.
Proof.
  intros NF L. rewrite onInput_halves.
  destruct (resolve findPoint native change) as [|e|ctx] eqn:R.
  - reflexivity.
  - now destruct (NF e).
  - specialize (L ctx eq_refl). unfold reconcile.
    destruct (String.eqb _ _) eqn:Q; [reflexivity|].
    apply String.eqb_neq in Q.
    destruct IS_ANDROID; [|reflexivity].
    specialize (L eq_refl Q).
    destruct (diffChars _ _) as [|d0 [|d1 ds]]; [reflexivity | now destruct L |].
    cbn. destruct (DiffOp.removed d1); [destruct (DiffOp.count d1 =? 1)|];
      reflexivity.
Qed.

Lemma onInput_return_value_witness :
  let change := changeOf (plainText "hello") (cursorAt "t" 5) in
  let same := caretIn "t" "hello" 5 in
  let longer := caretIn "t" "hello world" 11 in
  (forall e, resolve resolvePoint same change <> Failed e)
  /\ (forall ctx, resolve resolvePoint same change = Resolved ctx ->
        true = true ->
        Context.textContent ctx <> Context.text ctx ->
        List.length (lcsDiffChars (Context.text ctx) (Context.textContent ctx)) <> 1%nat)
  /\ fst (onInput true lcsDiffChars resolvePoint same change) = Return Js.undefined
  /\ (forall e, resolve resolvePoint longer change <> Failed e)
  /\ (forall ctx, resolve resolvePoint longer change = Resolved ctx ->
        true = true ->
        Context.textContent ctx <> Context.text ctx ->
        List.length (lcsDiffChars (Context.text ctx) (Context.textContent ctx)) <> 1%nat)
  /\ fst (onInput true lcsDiffChars resolvePoint longer change) = Return Js.false.
Proof.
  intros change same longer.
  assert (NF : forall e, resolve resolvePoint same change <> Failed e)
    by (intros e; discriminate).
  assert (L : forall ctx, resolve resolvePoint same change = Resolved ctx ->
                true = true ->
                Context.textContent ctx <> Context.text ctx ->
                List.length (lcsDiffChars (Context.text ctx) (Context.textContent ctx))
                <> 1%nat).
  { intros ctx R _ D. vm_compute in R. injection R as <-. now destruct D. }
  assert (NF' : forall e, resolve resolvePoint longer change <> Failed e)
    by (intros e; discriminate).
  assert (L' : forall ctx, resolve resolvePoint longer change = Resolved ctx ->
                 true = true ->
                 Context.textContent ctx <> Context.text ctx ->
                 List.length (lcsDiffChars (Context.text ctx) (Context.textContent ctx))
                 <> 1%nat).
  { intros ctx R _ _. vm_compute in R. injection R as <-. vm_compute. discriminate. }
  split; [exact NF|]. split; [exact L|].
  split; [exact (onInput_return_value true lcsDiffChars resolvePoint same change NF L)|].
  split; [exact NF'|]. split; [exact L'|].
  exact (onInput_return_value true lcsDiffChars resolvePoint longer change NF' L').
Defined.

(** * Further properties of the handlers *)

(** ** The before-input path *)

(** [onBeforeInput], path by path, in one equation. *)
Lemma onBeforeInput_unfold
    (IS_ANDROID : bool) (event : Event.t) (change : Change.t) (st : PluginState) :
  let pending := if IS_ANDROID then textToInsert st else "" in
  let inserted := (pending ++ Event.data event)%string in
  onBeforeInput IS_ANDROID event change st
  = (Js.false,
     Event.mk (Event.data event) true,
     if String.eqb inserted "" then change else Change.insertText change inserted,
     if IS_ANDROID then mkState (compositionCount st) (isComposing st) "" else st).
Proof.
  destruct st as [count composing pending], event as [data prevented].
  destruct IS_ANDROID; unfold onBeforeInput;
    cbn [Event.preventDefault Event.data textToInsert compositionCount isComposing].
  - destruct pending as [|a pending], data as [|b data]; reflexivity.
  - destruct data as [|b data]; reflexivity.
Qed.

(** X1: [onBeforeInput] makes at most one call, the insertion of the
    buffered text (on Android) followed by the event data, and makes none
    when that text is empty; the event data is never inserted twice.  On
    Android the buffer is empty afterwards, off Android it is untouched.
    The default is prevented and [false] is returned on every path. *)
Theorem onBeforeInput_inserts_once
    (IS_ANDROID : bool) (event : Event.t) (change : Change.t) (st : PluginState) :
  let pending := if IS_ANDROID then textToInsert st else "" in
  let '(returned, event', change', st') := onBeforeInput IS_ANDROID event change st in
  returned = Js.false
  /\ Event.defaultPrevented event' = true
  /\ Change.calls change'
     = (Change.calls change ++ insertion (pending ++ Event.data event))%list
  /\ textToInsert st' = (if IS_ANDROID then "" else textToInsert st)
  /\ compositionCount st' = compositionCount st
  /\ isComposing st' = isComposing st.
Proof.
  rewrite onBeforeInput_unfold. unfold insertion.
  repeat split.
  - destruct (String.eqb _ ""); cbn; now rewrite ?app_nil_r.
  - now destruct IS_ANDROID.
  - now destruct IS_ANDROID.
  - now destruct IS_ANDROID.
Qed.

(** X2: on Android, of two before-input notifications in a row only the
    first one inserts the buffered text: the calls are the insertion of
    the buffer followed by the first data, then the insertion of the
    second data alone. *)
Theorem pending_text_consumed_once diffChars findPoint (w : World) (d1 d2 : string) :
  let w' := run true diffChars findPoint w [BeforeInput d1; BeforeInput d2] in
  Change.calls (change w')
  = (Change.calls (change w)
     ++ insertion (textToInsert (state w) ++ d1) ++ insertion d2)%list
  /\ textToInsert (state w') = "".
Proof.
  destruct w as [[count composing pending] c fr].
  unfold run. cbn [fold_left step].
  rewrite !onBeforeInput_unfold.
  cbn [state change frames textToInsert compositionCount isComposing Event.data].
  unfold insertion.
  destruct (String.eqb (pending ++ d1) ""), (String.eqb ("" ++ d2) "") eqn:E;
    cbn in E; rewrite E; cbn; rewrite ?app_nil_r, <- ?app_assoc; auto.
Qed.

(** ** The composition tracker *)

(** X3: a composition end replaces the buffered text, it does not add to
    it.  On Android, after a composition start and two composition ends
    with data [d1] and [d2], the next before-input inserts the last
    non-empty data (or, when both are empty, what was buffered before)
    followed by its own data. *)
Theorem composition_end_overwrites
    diffChars findPoint (w : World) (d1 d2 data : string) :
  let buffered :=
    if String.eqb d2 "" then if String.eqb d1 "" then textToInsert (state w) else d1
    else d2 in
  let w' := run true diffChars findPoint w
              [CompositionStart; CompositionEnd d1; CompositionEnd d2; BeforeInput data] in
  Change.calls (change w')
  = (Change.calls (change w) ++ insertion (buffered ++ data))%list.
Proof.
  destruct w as [[count composing pending] c fr].
  unfold run. cbn [fold_left step].
  rewrite onBeforeInput_unfold.
  unfold onCompositionEnd, onCompositionStart.
  cbn -[String.eqb String.append].
  unfold insertion.
  destruct (String.eqb d1 ""), (String.eqb d2 ""); cbn -[String.eqb String.append];
    match goal with |- context [String.eqb ?s ""] => destruct (String.eqb s "") end;
    cbn; rewrite ?app_nil_r; reflexivity.
Qed.

(** A reset that finds [isComposing] false changes nothing. *)
Lemma runFrames_idle (fr : FrameQueue) (count : Z) (pending : string) :
  runFrames fr (mkState count false pending) = mkState count false pending.
Proof.
  unfold runFrames. induction fr as [|n fr IH]; cbn [fold_left]; [reflexivity|].
  unfold frameCallback at 2. cbn [compositionCount textToInsert].
  destruct (n <? count); exact IH.
Qed.

Lemma runFrames_textToInsert (fr : FrameQueue) (st : PluginState) :
  textToInsert (runFrames fr st) = textToInsert st.
Proof.
  unfold runFrames. revert st.
  induction fr as [|n fr IH]; intros st; cbn [fold_left]; [reflexivity|].
  rewrite IH. unfold frameCallback. now destruct (n <? _).
Qed.

(** The callbacks of a frame, all at once. *)
Lemma runFrames_unfold (fr : FrameQueue) (st : PluginState) :
  Forall (fun n => n <= compositionCount st) fr ->
  runFrames fr st
  = if existsb (Z.eqb (compositionCount st)) fr
    then mkState (compositionCount st) false (textToInsert st)
    else st.
Proof.
  induction 1 as [|n fr Hn _ IH]; [reflexivity|].
  change (runFrames (n :: fr) st) with (runFrames fr (frameCallback n st)).
  cbn [existsb]. unfold frameCallback.
  destruct (n <? compositionCount st) eqn:L.
  - apply Z.ltb_lt in L.
    assert (E : (compositionCount st =? n) = false) by (apply Z.eqb_neq; lia).
    rewrite E. exact IH.
  - apply Z.ltb_ge in L.
    assert (E : (compositionCount st =? n) = true) by (apply Z.eqb_eq; lia).
    rewrite E. apply runFrames_idle.
Qed.

(** X4: what a rendering frame does, in a world whose queued callbacks
    captured counts that were reached.  The queue is emptied, the count
    and the buffered text stay, and [isComposing] is cleared exactly when
    one of the queued callbacks captured the current count, that is, when
    a composition ended and none started since. *)
Theorem frame_resets_current_composition
    (IS_ANDROID : bool) diffChars findPoint (w : World) :
  wellFormed w ->
  let w' := step IS_ANDROID diffChars findPoint w AnimationFrame in
  frames w' = []
  /\ change w' = change w
  /\ compositionCount (state w') = compositionCount (state w)
  /\ textToInsert (state w') = textToInsert (state w)
  /\ isComposing (state w')
     = (if existsb (Z.eqb (compositionCount (state w))) (frames w)
        then false else isComposing (state w)).
Proof.
  intros WF. cbn [step frames change state].
  rewrite runFrames_count, runFrames_textToInsert, (runFrames_unfold _ _ WF).
  repeat split. now destruct (existsb _ _).
Qed.

Lemma frame_resets_current_composition_witness :
  let w := run true lcsDiffChars resolvePoint
             (initialWorld (changeOf (plainText "") (cursorAt "t" 0)))
             [CompositionStart; CompositionEnd "teh"] in
  wellFormed w
  /\ isComposing (state w) = true
  /\ isComposing (state (step true lcsDiffChars resolvePoint w AnimationFrame)) = false
  /\ frames (step true lcsDiffChars resolvePoint w AnimationFrame) = [].
Proof.
  intros w.
  assert (WF : wellFormed w).
  { apply run_wellFormed, initialWorld_wellFormed. }
  destruct (frame_resets_current_composition true lcsDiffChars resolvePoint w WF)
    as (H1 & _ & _ & _ & H5).
  split; [exact WF|]. split; [reflexivity|]. split; [exact H5 | exact H1].
Defined.

Section Traces.

Variable IS_ANDROID : bool.
Variable diffChars : string -> string -> list DiffOp.t.
Variable findPoint : Dom.node -> Z -> Value.t -> option Point.t.

(** One notification changes the count by one when it is a composition
    start and not at all otherwise. *)
Lemma step_count (w : World) (n : Notification) :
  compositionCount (state (step IS_ANDROID diffChars findPoint w n))
  = compositionCount (state w) + countStarts [n].
Proof.
  destruct n; unfold step.
  - cbn. lia.
  - pose proof (onCompositionEnd_count IS_ANDROID (Event.mk data false) (state w) (frames w)) as H.
    destruct (onCompositionEnd _ _ _ _) as [st fr]. cbn in *. lia.
  - rewrite onBeforeInput_unfold. cbn [state countStarts].
    destruct IS_ANDROID; cbn; lia.
  - cbn. lia.
  - cbn. rewrite runFrames_count. lia.
Qed.

Lemma countStarts_cons (n : Notification) (ns : list Notification) :
  countStarts (n :: ns) = countStarts [n] + countStarts ns.
Proof. destruct n; cbn; lia. Qed.

(** X5: [compositionCount] counts the compositions that started: after
    any sequence of notifications it is what it was plus the number of
    composition starts in the sequence.  No other handler and no frame
    callback changes it. *)
Theorem compositionCount_counts_starts (ns : list Notification) (w : World) :
  compositionCount (state (run IS_ANDROID diffChars findPoint w ns))
  = compositionCount (state w) + countStarts ns.
Proof.
  unfold run. revert w.
  induction ns as [|n ns IH]; intros w; cbn [fold_left].
  - cbn. lia.
  - rewrite IH, step_count, (countStarts_cons n ns). lia.
Qed.

(** One notification keeps [tracked]. *)
Lemma step_tracked (w : World) (n : Notification) :
  tracked w -> tracked (step IS_ANDROID diffChars findPoint w n).
Proof.
  intros (P & WF & C).
  pose proof (step_count w n) as SC.
  pose proof (step_wellFormed IS_ANDROID diffChars findPoint w n WF) as SW.
  split; [|split; [exact SW|]].
  - rewrite SC. destruct n; cbn; lia.
  - rewrite SC. clear SW SC. destruct n; unfold step.
    + cbn. intros _. lia.
    + unfold onCompositionEnd.
      destruct (IS_ANDROID && isComposing (state w)) eqn:A.
      * apply andb_prop in A as [_ A].
        intros _. specialize (C (or_introl A)). cbn [countStarts]. lia.
      * cbn [state countStarts]. intros H. specialize (C H). lia.
    + rewrite onBeforeInput_unfold. cbn [state countStarts].
      destruct IS_ANDROID.
      * cbn [isComposing textToInsert]. intros [H|H]; [|now destruct H].
        specialize (C (or_introl H)). lia.
      * intros H. specialize (C H). lia.
    + cbn [state countStarts]. intros H. specialize (C H). lia.
    + cbn [state countStarts]. rewrite runFrames_textToInsert.
      intros [H|H]; [|specialize (C (or_intror H)); lia].
      rewrite (runFrames_unfold _ _ WF) in H.
      destruct (existsb _ _); [discriminate|]. specialize (C (or_introl H)). lia.
Qed.

(** X6: from a plugin that was just created, whatever notifications
    arrive and whichever the platform: the count is not negative, every
    queued reset captured a count that was reached, and [isComposing] is
    true or text is buffered only if some composition has started. *)
Theorem reachable_worlds_tracked (ns : list Notification) (c : Change.t) :
  tracked (run IS_ANDROID diffChars findPoint (initialWorld c) ns).
Proof.
  assert (G : forall w, tracked w -> tracked (run IS_ANDROID diffChars findPoint w ns)).
  { unfold run. induction ns as [|n ns' IH]; intros w T; cbn [fold_left]; [exact T|].
    apply IH, step_tracked, T. }
  apply G. split; [cbn; lia|]. split; [apply initialWorld_wellFormed|].
  cbn. intros [H|H]; [discriminate | now destruct H].
Qed.

End Traces.

(** One notification, off Android, keeps the buffered text. *)
Lemma step_textToInsert_default diffChars findPoint (w : World) (n : Notification) :
  textToInsert (state (step false diffChars findPoint w n)) = textToInsert (state w).
Proof.
  destruct n; unfold step; try reflexivity.
  cbn. apply runFrames_textToInsert.
Qed.

(** X7: off Android nothing is ever buffered: no sequence of
    notifications changes [textToInsert], and each before-input inserts
    its own data and nothing more. *)
Theorem no_buffering_off_android diffChars findPoint (ns : list Notification) (w : World) :
  textToInsert (state (run false diffChars findPoint w ns)) = textToInsert (state w)
  /\ (forall data,
        Change.calls (change (step false diffChars findPoint
                                (run false diffChars findPoint w ns) (BeforeInput data)))
        = (Change.calls (change (run false diffChars findPoint w ns))
           ++ insertion data)%list).
Proof.
  split.
  - unfold run. revert w.
    induction ns as [|n ns IH]; intros w; cbn [fold_left]; [reflexivity|].
    now rewrite IH, step_textToInsert_default.
  - intros data. generalize (run false diffChars findPoint w ns). intros w'.
    unfold step. rewrite onBeforeInput_unfold. cbn [change Event.data String.append].
    unfold insertion. destruct (String.eqb data ""); cbn; now rewrite ?app_nil_r.
Qed.

(** ** The input path *)

(** X8: whatever it is given, [onInput] makes no call, or the single call
    [deleteCharBackward], or the two calls [insertTextAtRange] and
    [select] in this order; it never calls [insertText].  It changes
    nothing unless it returns [false] (a call that throws or returns
    [undefined] leaves the change as it was), and off Android it never
    calls [deleteCharBackward]. *)
Theorem onInput_calls_shape (IS_ANDROID : bool) diffChars findPoint native change :
  let '(completion, change') := onInput IS_ANDROID diffChars findPoint native change in
  (completion <> Return Js.false -> change' = change)
  /\ (change' = change
      \/ (IS_ANDROID = true /\ change' = Change.deleteCharBackward change)
      \/ exists range text marks corrected,
           Change.calls change'
           = (Change.calls change
              ++ [Change.InsertTextAtRange range text marks; Change.Select corrected])%list).
Proof.
  rewrite onInput_halves.
  destruct (resolve findPoint native change) as [|e|ctx].
  - split; auto.
  - split; auto.
  - unfold reconcile.
    assert (U : exists range text marks corrected,
      Change.calls
        (updateTextAndSelection change (Context.textContent ctx) (Context.text ctx)
           (Context.point ctx) (Context.start ctx) (Context.end_ ctx)
           (Leaf.marks (Context.leaf ctx)))
      = (Change.calls change
         ++ [Change.InsertTextAtRange range text marks; Change.Select corrected])%list).
    { rewrite updateTextAndSelection_calls. eauto. }
    destruct (String.eqb _ _); [split; auto|].
    destruct IS_ANDROID.
    + destruct (0 <? _); [|split; auto].
      destruct (nth_error _ 0%nat); [|split; auto].
      destruct (nth_error _ 1%nat) as [d1|]; [|split; auto].
      destruct (DiffOp.removed d1); [|split; auto].
      destruct (DiffOp.count d1 =? 1); split; auto; intros H; now destruct H.
    + split; auto. intros H; now destruct H.
Qed.

(** X9: a call of [onInput] that found its leaf throws in one case only:
    on Android, when the observed text differs from the text of the leaf
    and the diff has exactly one op. *)
Theorem onInput_throws_iff (IS_ANDROID : bool) diffChars findPoint native change ctx :
  resolve findPoint native change = Resolved ctx ->
  (fst (onInput IS_ANDROID diffChars findPoint native change) = Throw Js.TypeError
   <-> IS_ANDROID = true
       /\ Context.textContent ctx <> Context.text ctx
       /\ List.length (diffChars (Context.text ctx) (Context.textContent ctx)) = 1%nat).
Proof.
  intros R. rewrite onInput_halves, R. unfold reconcile.
  destruct (String.eqb _ _) eqn:E.
  - apply String.eqb_eq in E. split; [discriminate|]. intros (_ & H & _). contradiction.
  - apply String.eqb_neq in E. destruct IS_ANDROID.
    + destruct (diffChars _ _) as [|d0 [|d1 ds]]; cbn.
      * split; [discriminate|]. intros (_ & _ & H). discriminate.
      * split; auto.
      * split; [|intros (_ & _ & H); discriminate].
        destruct (DiffOp.removed d1); [destruct (DiffOp.count d1 =? 1)|]; discriminate.
    + split; [discriminate|]. intros (H & _). discriminate.
Qed.

Lemma onInput_throws_iff_witness :
  let change := changeOf (plainText "a") (cursorAt "t" 1) in
  let native := caretIn "t" "" 0 in
  let ctx := Context.mk (Point.mk "t" 0) (Text.mk "t" [Leaf.mk "a" []])
               0 (Leaf.mk "a" []) 0 1 true true "" in
  resolve resolvePoint native change = Resolved ctx
  /\ (fst (onInput true lcsDiffChars resolvePoint native change) = Throw Js.TypeError
      <-> true = true
          /\ Context.textContent ctx <> Context.text ctx
          /\ List.length (lcsDiffChars (Context.text ctx) (Context.textContent ctx)) = 1%nat).
Proof.
  intros change native ctx.
  assert (R : resolve resolvePoint native change = Resolved ctx) by reflexivity.
  split; [exact R|].
  exact (onInput_throws_iff true lcsDiffChars resolvePoint native change ctx R).
Defined.

(** X10: off Android [onInput] does not throw as long as the node that
    [findPoint] names is in the document and has a leaf. *)
Theorem default_path_never_throws diffChars findPoint native change :
  (forall point,
     findPoint (Dom.anchorNode native) (Dom.anchorOffset native) (Change.value change)
     = Some point ->
     exists node,
       Document.getDescendant (Value.document (Change.value change)) (Point.key point)
       = Some node
       /\ Text.leaves node <> []) ->
  exists v, fst (onInput false diffChars findPoint native change) = Return v.
Proof.
  intros H. unfold onInput.
  destruct (findPoint _ _ _) as [point|]; [|eexists; reflexivity].
  destruct (H point eq_refl) as (node & G & L). rewrite G.
  pose proof (getDescendant_key _ _ _ G) as K.
  assert (B : exists block,
             Document.getClosestBlock (Value.document (Change.value change)) (Text.key node)
             = Some block).
  { rewrite K. unfold Document.getDescendant in G.
    destruct (Document.getClosestBlock _ _) as [b|]; [eauto | discriminate]. }
  destruct B as [block ->].
  destruct (findLeaf _ _ _ _ _) as [[found start] end_].
  assert (C : exists index leaf,
             match found with Some l => Some l | None => lastLeafOf (Text.getLeaves node) end
             = Some (index, leaf)).
  { destruct found as [[i l]|]; [eauto|].
    unfold lastLeafOf, Text.getLeaves.
    destruct (rev (Text.leaves node)) as [|l ls] eqn:E; [|eauto].
    apply (f_equal (@rev Leaf.t)) in E. rewrite rev_involutive in E. contradiction. }
  destruct C as (index & leaf & ->).
  destruct (String.eqb _ _); eexists; reflexivity.
Qed.

Lemma default_path_never_throws_witness :
  let change := changeOf threeLeaves (cursorAt "t" 7) in
  (forall point,
     resolvePoint (Dom.anchorNode boldCaret) (Dom.anchorOffset boldCaret)
       (Change.value change) = Some point ->
     exists node,
       Document.getDescendant (Value.document (Change.value change)) (Point.key point)
       = Some node
       /\ Text.leaves node <> [])
  /\ exists v, fst (onInput false lcsDiffChars resolvePoint boldCaret change) = Return v.
Proof.
  intros change.
  assert (H : forall point,
     resolvePoint (Dom.anchorNode boldCaret) (Dom.anchorOffset boldCaret)
       (Change.value change) = Some point ->
     exists node,
       Document.getDescendant (Value.document (Change.value change)) (Point.key point)
       = Some node
       /\ Text.leaves node <> []).
  { intros point E. vm_compute in E. injection E as <-.
    eexists. split; [reflexivity | discriminate]. }
  split; [exact H|].
  exact (default_path_never_throws lcsDiffChars resolvePoint boldCaret change H).
Defined.

(** X11: on Android the first op of the diff has no part in what
    [onInput] does: two diffs that agree on whether there is any op and
    on every op after the first give the same completion and the same
    change.  The length of the unchanged prefix, read at line 179, goes
    nowhere. *)
Theorem android_first_op_unused
    (diffChars diffChars' : string -> string -> list DiffOp.t)
    findPoint native change :
  (forall a b, tl (diffChars a b) = tl (diffChars' a b)
               /\ (diffChars a b = [] <-> diffChars' a b = [])) ->
  onInput true diffChars' findPoint native change
  = onInput true diffChars findPoint native change.
Proof.
  intros H. rewrite !onInput_halves.
  destruct (resolve findPoint native change) as [| |ctx]; try reflexivity.
  unfold reconcile.
  destruct (String.eqb _ _); [reflexivity|].
  destruct (H (Context.text ctx) (Context.textContent ctx)) as [T [E1 E2]].
  destruct (diffChars _ _) as [|d0 ds], (diffChars' _ _) as [|d0' ds'].
  - reflexivity.
  - now specialize (E1 eq_refl).
  - now specialize (E2 eq_refl).
  - cbn in T. subst ds'. destruct ds as [|d1 ds]; reflexivity.
Qed.

Lemma android_first_op_unused_witness :
  let change := changeOf (plainText "hello world") (cursorAt "t" 7) in
  let native := caretIn "t" "hello orld" 6 in
  (forall a b, tl (lcsDiffChars a b) = tl (forgetFirst lcsDiffChars a b)
               /\ (lcsDiffChars a b = [] <-> forgetFirst lcsDiffChars a b = []))
  /\ onInput true (forgetFirst lcsDiffChars) resolvePoint native change
     = onInput true lcsDiffChars resolvePoint native change.
Proof.
  intros change native.
  assert (H : forall a b, tl (lcsDiffChars a b) = tl (forgetFirst lcsDiffChars a b)
               /\ (lcsDiffChars a b = [] <-> forgetFirst lcsDiffChars a b = [])).
  { intros a b. unfold forgetFirst. destruct (lcsDiffChars a b); split; try reflexivity;
      split; intros E; try discriminate; reflexivity. }
  split; [exact H|].
  exact (android_first_op_unused lcsDiffChars (forgetFirst lcsDiffChars)
           resolvePoint native change H).
Defined.

(** ** The text read from the DOM *)

Lemma string_snoc (s : string) :
  s = "" \/ exists s' c, s = (s' ++ String c "")%string.
Proof.
  induction s as [|a s IH]; [now left|]. right.
  destruct IH as [->|(s' & c & ->)].
  - exists "", a. reflexivity.
  - exists (String a s'), c. reflexivity.
Qed.

Lemma string_snoc_inj (s t : string) (c d : ascii) :
  (s ++ String c "")%string = (t ++ String d "")%string -> s = t /\ c = d.
Proof.
  revert t. induction s as [|a s IH]; intros [|b t] H; cbn in H.
  - injection H as ->. auto.
  - injection H as -> H. destruct t; discriminate.
  - injection H as -> H. destruct s; discriminate.
  - injection H as -> H. apply IH in H as [-> ->]. auto.
Qed.

(** X12: the compensation for the trailing new line, in full.  Either
    both flags hold and the DOM text is the observed text followed by one
    new line, which was dropped; or the observed text is the DOM text as
    it is, and then a flag is off or the DOM text does not end in a new
    line (an empty DOM text included).  Never more than one character is
    dropped, and never one that is not a new line. *)
Theorem observedText_cases (s : string) (isLastText isLastLeaf : bool) :
  (isLastText = true /\ isLastLeaf = true
   /\ s = (observedText s isLastText isLastLeaf ++ newline)%string)
  \/ (observedText s isLastText isLastLeaf = s
      /\ (isLastText && isLastLeaf = false
          \/ forall s', s <> (s' ++ newline)%string)).
Proof.
  destruct (isLastText && isLastLeaf) eqn:F.
  2:{ right. split; [now apply observedText_keeps | now left]. }
  apply andb_prop in F as [-> ->].
  destruct (string_snoc s) as [->|(s' & c & ->)].
  - right. split; [reflexivity|]. right. intros [|a s']; discriminate.
  - destruct (ascii_dec c "010") as [->|N].
    + left. fold newline. rewrite observedText_strips. auto.
    + right. split.
      * unfold observedText. rewrite charAt_last. cbn [andb].
        assert (E : String.eqb (String c "") (String "010" "") = false).
        { apply String.eqb_neq. intros H. injection H as H. contradiction. }
        now rewrite E.
      * right. intros t H. apply string_snoc_inj in H as [_ H]. contradiction.
Qed.

(** ** The leaf that [onInput] picks *)

(** Everything the first half of [onInput] computed, read back. *)
Lemma resolve_inversion findPoint native change ctx :
  resolve findPoint native change = Resolved ctx ->
  let leaves := Text.leaves (Context.node ctx) in
  exists found block,
    findLeaf (Point.offset (Context.point ctx)) leaves 0 0 0
    = (found, Context.start ctx, Context.end_ ctx)
    /\ match found with Some l => Some l | None => lastLeafOf leaves end
       = Some (Context.index ctx, Context.leaf ctx)
    /\ Document.getClosestBlock (Value.document (Change.value change))
         (Text.key (Context.node ctx)) = Some block
    /\ Context.isLastText ctx
       = match Block.getLastText block with
         | Some t => String.eqb (Text.key (Context.node ctx)) (Text.key t)
         | None => false
         end
    /\ Context.isLastLeaf ctx
       = match lastLeafOf leaves with
         | Some (last, _) => Nat.eqb (Context.index ctx) last
         | None => false
         end.
Proof.
  unfold resolve.
  destruct (findPoint _ _ _) as [point|]; [|discriminate].
  destruct (Document.getDescendant _ _) as [node|] eqn:G; [|discriminate].
  destruct (Document.getClosestBlock _ _) as [block|] eqn:B; [|discriminate].
  destruct (findLeaf _ _ _ _ _) as [[found start] end_] eqn:F.
  destruct (match found with Some l => Some l | None => _ end) as [[index leaf]|] eqn:C;
    [|discriminate].
  intros H. injection H as <-. cbn.
  exists found, block. auto.
Qed.

Lemma findLeaf_found_bounds (offset : Z) (leaves : list Leaf.t) :
  forall index start end_ i leaf s e,
    findLeaf offset leaves index start end_ = (Some (i, leaf), s, e) ->
    offset <= e /\ ((i = index /\ s = end_) \/ s < offset).
Proof.
  induction leaves as [|r rest IH]; intros index start end_ i leaf s e H; simpl in H.
  - discriminate.
  - destruct (offset <=? end_ + Js.length (Leaf.text r)) eqn:E.
    + injection H as <- <- <- <-. apply Z.leb_le in E. auto.
    + apply Z.leb_gt in E.
      destruct (IH _ _ _ _ _ _ _ H) as [H1 [[_ ->]|H2]]; split; auto; right; lia.
Qed.

Lemma findLeaf_none_bounds (offset : Z) (leaves : list Leaf.t) :
  forall index start end_ s e,
    findLeaf offset leaves index start end_ = (None, s, e) ->
    leaves = [] \/ e < offset.
Proof.
  induction leaves as [|r rest IH]; intros index start end_ s e H; simpl in H.
  - now left.
  - right. destruct (offset <=? end_ + Js.length (Leaf.text r)) eqn:E; [discriminate|].
    apply Z.leb_gt in E.
    destruct (IH _ _ _ _ _ H) as [->|H1]; [|exact H1].
    cbn in H. injection H as _ <-. exact E.
Qed.

Lemma lastLeafOf_index (leaves : list Leaf.t) (last : nat) (l : Leaf.t) :
  lastLeafOf leaves = Some (last, l) -> S last = List.length leaves.
Proof.
  unfold lastLeafOf. destruct (rev leaves) as [|x xs] eqn:E; [discriminate|].
  intros H. injection H as <- _.
  apply (f_equal (@List.length Leaf.t)) in E. rewrite length_rev in E.
  cbn in E. lia.
Qed.

(** X13: the leaf that [onInput] picks is the first one that ends at or
    after the offset of the point, so that a point on the border of two
    leaves goes to the earlier one; when the offset is past the end of
    the node it is the last leaf.  [isLastLeaf] holds exactly when the
    leaf picked is the last of the node. *)
Theorem resolved_leaf_holds_point findPoint native change ctx :
  resolve findPoint native change = Resolved ctx ->
  let offset := Point.offset (Context.point ctx) in
  let leaves := Text.leaves (Context.node ctx) in
  leafSpan leaves (Context.index ctx) (Context.leaf ctx) (Context.start ctx)
    (Context.end_ ctx)
  /\ (Context.index ctx = 0%nat \/ Context.start ctx < offset)
  /\ (offset <= Context.end_ ctx \/ S (Context.index ctx) = List.length leaves)
  /\ (Context.isLastLeaf ctx = true <-> S (Context.index ctx) = List.length leaves).
Proof.
  intros R offset leaves.
  destruct (resolve_inversion _ _ _ _ R) as (found & block & F & C & _ & _ & L).
  fold leaves in F, C, L. fold offset in F.
  assert (Sp : leafSpan leaves (Context.index ctx) (Context.leaf ctx)
                (Context.start ctx) (Context.end_ ctx))
    by (eapply chosen_leaf_span; eassumption).
  split; [exact Sp|].
  assert (B : (Context.index ctx = 0%nat \/ Context.start ctx < offset)
              /\ (offset <= Context.end_ ctx
                  \/ S (Context.index ctx) = List.length leaves)).
  { destruct found as [[i l]|].
    - injection C as -> ->.
      destruct (findLeaf_found_bounds _ _ _ _ _ _ _ _ _ F) as [H1 [[H2 _]|H2]]; auto.
    - pose proof (lastLeafOf_index _ _ _ C) as E.
      destruct (findLeaf_none _ _ _ _ _ _ _ F) as [(E0 & _ & _)|(pre & l & E1 & _ & _)].
      + rewrite E0 in C. discriminate.
      + split; [|auto]. right.
        destruct (findLeaf_none_bounds _ _ _ _ _ _ _ F) as [E0|Q].
        * rewrite E0 in E1. destruct pre; discriminate.
        * destruct Sp as (_ & _ & Se).
          pose proof (js_length_nonneg (Leaf.text (Context.leaf ctx))). lia. }
  split; [apply B|]. split; [apply B|].
  rewrite L. destruct (lastLeafOf leaves) as [[last l]|] eqn:E.
  - apply lastLeafOf_index in E. rewrite Nat.eqb_eq. lia.
  - destruct Sp as (N & _). unfold lastLeafOf in E.
    destruct (rev leaves) eqn:V; [|discriminate].
    apply (f_equal (@rev Leaf.t)) in V. rewrite rev_involutive in V. cbn in V.
    rewrite V in N. destruct (Context.index ctx); discriminate.
Qed.

Lemma resolved_leaf_holds_point_witness :
  let change := changeOf threeLeaves (cursorAt "t" 7) in
  let ctx := Context.mk (Point.mk "t" 8)
               (Text.mk "t" [Leaf.mk "say " []; Leaf.mk "helo" ["bold"]; Leaf.mk " now" []])
               1 (Leaf.mk "helo" ["bold"]) 4 8 true false "hello" in
  resolve resolvePoint boldCaret change = Resolved ctx
  /\ (Context.index ctx = 0%nat \/ Context.start ctx < 8)
  /\ (8 <= Context.end_ ctx \/ S (Context.index ctx) = 3%nat).
Proof.
  intros change ctx.
  assert (R : resolve resolvePoint boldCaret change = Resolved ctx) by reflexivity.
  destruct (resolved_leaf_holds_point resolvePoint boldCaret change ctx R)
    as (_ & H1 & H2 & _).
  split; [exact R|]. split; [exact H1 | exact H2].
Defined.

(** ** What a replacement leaves alone *)

(** X14: off Android, when the selection of the model starts in the node
    of the point, [onInput] changes no text node but that one: the
    replacement it asks for has both of its ends on the key of the point,
    and every other node of the document is found as it was. *)
Theorem replace_touches_one_node diffChars findPoint native change ctx (k' : Key) :
  resolve findPoint native change = Resolved ctx ->
  Range.startKey (Value.selection (Change.value change))
  = Point.key (Context.point ctx) ->
  k' <> Point.key (Context.point ctx) ->
  Document.getDescendant
    (Value.document (Change.value (snd (onInput false diffChars findPoint native change))))
    k'
  = Document.getDescendant (Value.document (Change.value change)) k'.
Proof.
  intros R K N. rewrite onInput_halves, R. unfold reconcile.
  destruct (String.eqb _ _); [reflexivity|].
  unfold updateTextAndSelection. rewrite entire_range.
  cbn [snd Change.select Change.insertTextAtRange Change.value Value.document].
  apply resolve_resolved in R as (_ & _ & S & _).
  assert (E : Context.start ctx <= Context.end_ ctx).
  { destruct S as (_ & _ & ->).
    pose proof (js_length_nonneg (Leaf.text (Context.leaf ctx))). lia. }
  rewrite (replaceRange_at_node _ _ _ _ _ _ E K). cbn [Value.document].
  now apply getDescendant_updateText_other.
Qed.

Lemma replace_touches_one_node_witness :
  let change := changeOf twoParagraphs (cursorAt "t" 5) in
  let native := caretIn "t" "hello!" 6 in
  let ctx := Context.mk (Point.mk "t" 6) (Text.mk "t" [Leaf.mk "hello" []])
               0 (Leaf.mk "hello" []) 0 5 true true "hello!" in
  resolve resolvePoint native change = Resolved ctx
  /\ Range.startKey (Value.selection (Change.value change))
     = Point.key (Context.point ctx)
  /\ "s" <> Point.key (Context.point ctx)
  /\ Document.getDescendant
       (Value.document (Change.value (snd (onInput false lcsDiffChars resolvePoint
                                              native change)))) "s"
     = Some (Text.mk "s" [Leaf.mk "ab" []]).
Proof.
  intros change native ctx.
  assert (R : resolve resolvePoint native change = Resolved ctx) by reflexivity.
  assert (K : Range.startKey (Value.selection (Change.value change))
              = Point.key (Context.point ctx)) by reflexivity.
  assert (N : "s" <> Point.key (Context.point ctx)) by discriminate.
  split; [exact R|]. split; [exact K|]. split; [exact N|].
  rewrite (replace_touches_one_node lcsDiffChars resolvePoint native change ctx "s" R K N).
  reflexivity.
Defined.

(** ** After a replacement *)

Lemma findLeaf_app (offset : Z) (pre rest : list Leaf.t) :
  forall index start end_,
    findLeaf offset (pre ++ rest) index start end_
    = match findLeaf offset pre index start end_ with
      | (Some x, s, e) => (Some x, s, e)
      | (None, s, e) => findLeaf offset rest (index + List.length pre) s e
      end.
Proof.
  induction pre as [|r pre IH]; intros index start end_.
  - cbn. now rewrite Nat.add_0_r.
  - cbn [app findLeaf List.length].
    destruct (offset <=? end_ + Js.length (Leaf.text r)); [reflexivity|].
    rewrite IH. now rewrite Nat.add_succ_r.
Qed.

Lemma findLeaf_found_index (offset : Z) (leaves : list Leaf.t) index start end_ i leaf s e :
  findLeaf offset leaves index start end_ = (Some (i, leaf), s, e) ->
  (i < index + List.length leaves)%nat.
Proof.
  intros H. apply findLeaf_found in H as (pre & post & -> & -> & _).
  rewrite length_app. cbn. lia.
Qed.

(** The leaves before the one picked were all passed over. *)
Lemma findLeaf_passes_prefix (offset : Z) (leaves : list Leaf.t) found start end_ index leaf :
  findLeaf offset leaves 0 0 0 = (found, start, end_) ->
  match found with Some l => Some l | None => lastLeafOf leaves end = Some (index, leaf) ->
  exists s,
    findLeaf offset (firstn index leaves) 0 0 0 = (None, s, start).
Proof.
  intros F C.
  pose proof (chosen_leaf_span _ _ _ _ _ _ _ F C) as (Hn & Hs & He).
  pose proof (nth_error_firstn_skipn _ _ _ Hn) as E.
  assert (Li : List.length (firstn index leaves) = index).
  { apply firstn_length_le. apply Nat.lt_le_incl, nth_error_Some. congruence. }
  set (pre := firstn index leaves) in *.
  rewrite E, findLeaf_app in F.
  destruct (findLeaf offset pre 0 0 0) as [[[[j l]|] sp] ep] eqn:P.
  - exfalso. injection F as <- _ _. cbn in C.
    assert (Ej : j = index) by congruence.
    apply findLeaf_found_index in P. lia.
  - exists sp. f_equal.
    apply findLeaf_none in P as [(Ep & _ & ->) | (pre' & l & Ep & -> & ->)].
    + rewrite Hs, Ep. reflexivity.
    + rewrite Hs, Ep, characters_app, length_app. cbn [characters flat_map].
      rewrite app_nil_r. unfold leafChars.
      pose proof (length_markedChars (Leaf.text l) (Leaf.marks l)). lia.
Qed.

Lemma lastLeafOf_some (leaves : list Leaf.t) :
  leaves <> [] ->
  exists l, lastLeafOf leaves = Some (Nat.pred (List.length leaves), l).
Proof.
  unfold lastLeafOf. intros N. destruct (rev leaves) as [|l ls] eqn:E; [|eauto].
  apply (f_equal (@rev Leaf.t)) in E. rewrite rev_involutive in E. contradiction.
Qed.

Lemma getLastText_key (b : Block.t) :
  option_map Text.key (Block.getLastText b)
  = match rev (map Text.key (Block.nodes b)) with
    | k :: _ => Some k
    | [] => None
    end.
Proof.
  unfold Block.getLastText. rewrite <- map_rev.
  destruct (rev (Block.nodes b)); reflexivity.
Qed.

(** X15: once [onInput] has replaced the text of a leaf, the model agrees
    with the DOM: delivered again with the same DOM selection, on either
    platform, [onInput] finds the texts equal and leaves the change as it
    is.  This is for a selection of the model that starts in the node of
    the point, leaves as [getLeaves] gives them, an observed text that is
    not empty, a point that is not past the end of the new text of the
    leaf, and a [findPoint] that gives the same point on the new
    value. *)
Theorem replace_reaches_fixed_point
    (IS_ANDROID : bool) diffChars diffChars' findPoint native change ctx :
  resolve findPoint native change = Resolved ctx ->
  Context.textContent ctx <> Context.text ctx ->
  Context.textContent ctx <> "" ->
  leavesAsRead (Text.leaves (Context.node ctx)) ->
  Range.startKey (Value.selection (Change.value change))
  = Point.key (Context.point ctx) ->
  Point.offset (Context.point ctx)
  <= Context.start ctx + Js.length (Context.textContent ctx) ->
  let change' := snd (onInput false diffChars findPoint native change) in
  findPoint (Dom.anchorNode native) (Dom.anchorOffset native) (Change.value change')
  = Some (Context.point ctx) ->
  onInput IS_ANDROID diffChars' findPoint native change' = (Return Js.undefined, change').
Proof.
  intros R D Hne Nl SK O change' FP.
  destruct (resolve_inversion _ _ _ _ R) as (found & block & F & C & B & LT & LL).
  destruct (resolve_resolved _ _ _ _ R) as (_ & G & Sp & TC).
  set (k := Point.key (Context.point ctx)) in *.
  set (obs := Context.textContent ctx) in *.
  set (m := Leaf.marks (Context.leaf ctx)) in *.
  set (i := Context.index ctx) in *.
  destruct (Context.node ctx) as [nk leaves] eqn:En. cbn [Text.leaves Text.key] in *.
  pose proof (getDescendant_key _ _ _ G) as K. cbn [Text.key] in K. subst nk.
  set (fs := fun n : Text.t =>
               Text.splice n (Context.start ctx)
                 (Z.max (Context.start ctx) (Context.end_ ctx)) (markedChars obs m)).
  assert (fs_key : forall n, Text.key (fs n) = Text.key n) by reflexivity.
  set (leaves' := (firstn i leaves ++ Leaf.mk obs m :: skipn (S i) leaves)%list).
  assert (Ef : fs (Text.mk k leaves) = Text.mk k leaves').
  { pose proof (splice_leaf_read k leaves i _ _ _ obs Sp Hne Nl) as H.
    unfold fs, leaves', m, Text.splice in *. cbv beta.
    cbn [Text.leaves Text.key] in *. now rewrite H. }
  (* the value after the replacement *)
  assert (V : Value.document (Change.value change')
              = Document.updateText (Value.document (Change.value change)) k fs).
  { subst change'. rewrite onInput_halves, R, reconcile_default by exact D.
    unfold updateTextAndSelection. rewrite entire_range.
    cbn [snd Change.select Change.insertTextAtRange Change.value Value.document].
    assert (E : Context.start ctx <= Context.end_ ctx).
    { destruct Sp as (_ & _ & ->).
      pose proof (js_length_nonneg (Leaf.text (Context.leaf ctx))). lia. }
    fold k. now rewrite (replaceRange_at_node _ _ _ _ _ _ E SK). }
  clearbody change'.
  unfold onInput. rewrite FP. fold k. rewrite V.
  rewrite (getDescendant_updateText _ k fs _ G eq_refl), Ef.
  cbn [Text.key Text.getLeaves Text.leaves].
  pose proof (getClosestBlock_updateText fs fs_key
                (Value.document (Change.value change)) k k) as B'.
  rewrite B in B'. destruct B' as (b' & -> & _ & Eb). specialize (Eb eq_refl).
  (* the leaf is found again *)
  destruct (findLeaf_passes_prefix _ _ _ _ _ _ _ F C) as (sp & P).
  fold i in P.
  assert (Li : List.length (firstn i leaves) = i).
  { apply firstn_length_le. destruct Sp as (Hn & _).
    apply Nat.lt_le_incl, nth_error_Some. congruence. }
  assert (F' : findLeaf (Point.offset (Context.point ctx)) leaves' 0 0 0
               = (Some (i, Leaf.mk obs m), Context.start ctx,
                  Context.start ctx + Js.length obs)).
  { unfold leaves'. rewrite findLeaf_app, P, Li. cbn [findLeaf Leaf.text Nat.add].
    apply Z.leb_le in O. now rewrite O. }
  rewrite F'.
  (* the two flags are as before *)
  assert (Len : List.length leaves' = List.length leaves).
  { destruct Sp as (Hn & _).
    pose proof (f_equal (@List.length Leaf.t) (nth_error_firstn_skipn _ _ _ Hn)) as H.
    rewrite H. unfold leaves'. rewrite !length_app. reflexivity. }
  assert (Ne : leaves <> []).
  { destruct Sp as (Hn & _). intros ->. destruct i; discriminate. }
  assert (Ne' : leaves' <> []).
  { unfold leaves'. destruct (firstn i leaves); discriminate. }
  destruct (lastLeafOf_some _ Ne) as (l0 & L0).
  destruct (lastLeafOf_some _ Ne') as (l1 & L1).
  rewrite L1, Len. rewrite L0 in LL.
  assert (T' : match Block.getLastText b' with
               | Some t => String.eqb k (Text.key t)
               | None => false
               end = Context.isLastText ctx).
  { rewrite LT.
    pose proof (getLastText_key b') as K1. pose proof (getLastText_key block) as K2.
    rewrite Eb in K1 at 2. cbn [Block.nodes] in K1.
    rewrite (map_key_updateTexts fs fs_key) in K1. rewrite <- K2 in K1.
    destruct (Block.getLastText b'), (Block.getLastText block); cbn in K1;
      try discriminate; [|reflexivity].
    now injection K1 as ->. }
  rewrite T', <- LL. fold obs in TC. rewrite <- TC.
  cbn [Leaf.text]. now rewrite String.eqb_refl.
Qed.

Lemma replace_reaches_fixed_point_witness :
  let change := changeOf threeLeaves (cursorAt "t" 7) in
  let ctx := Context.mk (Point.mk "t" 8)
               (Text.mk "t" [Leaf.mk "say " []; Leaf.mk "helo" ["bold"]; Leaf.mk " now" []])
               1 (Leaf.mk "helo" ["bold"]) 4 8 true false "hello" in
  let change' := snd (onInput false lcsDiffChars resolvePoint boldCaret change) in
  resolve resolvePoint boldCaret change = Resolved ctx
  /\ Context.textContent ctx <> Context.text ctx
  /\ Context.textContent ctx <> ""
  /\ leavesAsRead (Text.leaves (Context.node ctx))
  /\ Range.startKey (Value.selection (Change.value change))
     = Point.key (Context.point ctx)
  /\ Point.offset (Context.point ctx)
     <= Context.start ctx + Js.length (Context.textContent ctx)
  /\ resolvePoint (Dom.anchorNode boldCaret) (Dom.anchorOffset boldCaret)
       (Change.value change') = Some (Context.point ctx)
  /\ onInput true lcsDiffChars resolvePoint boldCaret change'
     = (Return Js.undefined, change').
Proof.
  intros change ctx change'.
  assert (R : resolve resolvePoint boldCaret change = Resolved ctx) by reflexivity.
  assert (D : Context.textContent ctx <> Context.text ctx) by discriminate.
  assert (Hne : Context.textContent ctx <> "") by discriminate.
  assert (Nl : leavesAsRead (Text.leaves (Context.node ctx))) by (left; reflexivity).
  assert (SK : Range.startKey (Value.selection (Change.value change))
               = Point.key (Context.point ctx)) by reflexivity.
  assert (O : Point.offset (Context.point ctx)
              <= Context.start ctx + Js.length (Context.textContent ctx))
    by (vm_compute; discriminate).
  assert (FP : resolvePoint (Dom.anchorNode boldCaret) (Dom.anchorOffset boldCaret)
                 (Change.value change') = Some (Context.point ctx)) by reflexivity.
  repeat (split; [assumption|]).
  exact (replace_reaches_fixed_point true lcsDiffChars lcsDiffChars resolvePoint
           boldCaret change ctx R D Hne Nl SK O FP).
Defined.

(** ** The two platforms, side by side *)

(** X16: on Android, when the second op of the diff removes a number of
    characters other than one, [onInput] does what it does off Android:
    same completion, same calls, same value. *)
Theorem android_long_removal_is_default diffChars findPoint native change ctx d1 :
  resolve findPoint native change = Resolved ctx ->
  nth_error (diffChars (Context.text ctx) (Context.textContent ctx)) 1 = Some d1 ->
  DiffOp.removed d1 = true ->
  DiffOp.count d1 <> 1 ->
  onInput true diffChars findPoint native change
  = onInput false diffChars findPoint native change.
Proof.
  intros R N Hr Hc. rewrite !onInput_halves, R. unfold reconcile.
  destruct (String.eqb _ _); [reflexivity|].
  destruct (diffChars _ _) as [|d0 [|d ds]]; try discriminate.
  injection N as ->. cbn. apply Z.eqb_neq in Hc. now rewrite Hr, Hc.
Qed.

Lemma android_long_removal_is_default_witness :
  let change := changeOf (plainText "hello world") (cursorAt "t" 11) in
  let native := caretIn "t" "hello" 5 in
  let ctx := Context.mk (Point.mk "t" 5) (Text.mk "t" [Leaf.mk "hello world" []])
               0 (Leaf.mk "hello world" []) 0 11 true true "hello" in
  resolve resolvePoint native change = Resolved ctx
  /\ nth_error (lcsDiffChars (Context.text ctx) (Context.textContent ctx)) 1
     = Some (removedOp " world")
  /\ DiffOp.removed (removedOp " world") = true
  /\ DiffOp.count (removedOp " world") <> 1
  /\ onInput true lcsDiffChars resolvePoint native change
     = onInput false lcsDiffChars resolvePoint native change.
Proof.
  intros change native ctx.
  assert (R : resolve resolvePoint native change = Resolved ctx) by reflexivity.
  assert (N : nth_error (lcsDiffChars (Context.text ctx) (Context.textContent ctx)) 1
              = Some (removedOp " world")) by reflexivity.
  assert (Hc : DiffOp.count (removedOp " world") <> 1) by discriminate.
  split; [exact R|]. split; [exact N|]. split; [reflexivity|]. split; [exact Hc|].
  exact (android_long_removal_is_default lcsDiffChars resolvePoint native change ctx
           (removedOp " world") R N eq_refl Hc).
Defined.

(** ** A composition end after the reset *)

(** X17: a composition end buffers its data only while [isComposing] is
    true.  On Android, in a world whose queued callbacks captured counts
    that were reached, after a composition start, a composition end with
    data [d1] and a rendering frame, a further composition end with data
    [d2] buffers nothing: the reset has cleared [isComposing], and what
    is buffered is what the first end left. *)
Theorem late_composition_end_buffers_nothing
    diffChars findPoint (w : World) (d1 d2 : string) :
  wellFormed w ->
  let w' := run true diffChars findPoint w
              [CompositionStart; CompositionEnd d1; AnimationFrame; CompositionEnd d2] in
  isComposing (state w') = false
  /\ textToInsert (state w')
     = (if String.eqb d1 "" then textToInsert (state w) else d1).
Proof.
  intros WF.
  set (w2 := run true diffChars findPoint w [CompositionStart; CompositionEnd d1]).
  assert (W2 : wellFormed w2) by (apply run_wellFormed, WF).
  assert (S2 : compositionCount (state w2) = compositionCount (state w) + 1
               /\ textToInsert (state w2)
                  = (if String.eqb d1 "" then textToInsert (state w) else d1)
               /\ existsb (Z.eqb (compositionCount (state w2))) (frames w2) = true).
  { subst w2. destruct w as [[count composing pending] c fr].
    cbn -[String.eqb Z.eqb existsb]. unfold onCompositionEnd, onCompositionStart.
    cbn -[String.eqb Z.eqb existsb].
    destruct (String.eqb d1 ""); cbn -[Z.eqb existsb];
      (split; [reflexivity|]; split; [reflexivity|]);
      rewrite existsb_app; cbn; rewrite Z.eqb_refl; apply orb_true_r. }
  destruct S2 as (C2 & T2 & Q2).
  change (run true diffChars findPoint w
            [CompositionStart; CompositionEnd d1; AnimationFrame; CompositionEnd d2])
    with (step true diffChars findPoint (step true diffChars findPoint w2 AnimationFrame)
            (CompositionEnd d2)).
  clearbody w2.
  cbn [step state frames change].
  rewrite (runFrames_unfold _ _ W2), Q2.
  unfold onCompositionEnd. cbn. auto.
Qed.

Lemma late_composition_end_buffers_nothing_witness :
  wellFormed (initialWorld (changeOf (plainText "") (cursorAt "t" 0)))
  /\ let w' := run true lcsDiffChars resolvePoint
                 (initialWorld (changeOf (plainText "") (cursorAt "t" 0)))
                 [CompositionStart; CompositionEnd "teh"; AnimationFrame;
                  CompositionEnd "the"] in
     isComposing (state w') = false /\ textToInsert (state w') = "teh".
Proof.
  split; [apply initialWorld_wellFormed|].
  exact (late_composition_end_buffers_nothing lcsDiffChars resolvePoint
           (initialWorld (changeOf (plainText "") (cursorAt "t" 0))) "teh" "the"
           (initialWorld_wellFormed _)).
Defined.
